(** * IsoSpec: the threshold generators, the ordered generator's signature
      and the rounding discipline of [unnormalized_logProb]

    Shallow embedding of [IsoSpec++/isoSpec++.h] and [IsoSpec++/misc.h].

    Numbers.  A C++ [double] is modelled by a rational ([Q]); the tables of
    log-probabilities additionally know minus infinity ([dbl]).  In
    [Module Misc] and [Module MiscConf] every floating-point operation is
    the exact operation followed by a rounding ([rnd], [fl]).  The walks of
    the generators come twice: in [Module Fast], [Module Cntr] and
    [Module Base] with [dadd], [+] and [*] standing for the machine's
    operations (the theorems that quantify over generators use no law of
    arithmetic: no associativity, no commutativity, no monotonicity); and
    in [Module Rounded] with the rounding written out, where [binary64]
    gives the values that IEEE 754 arithmetic stores.
    C++ [int] indices and counters that only ever count upwards from zero are
    [nat]; isotope counts are [Z]. *)

From Stdlib Require Import ZArith QArith Qround List Bool Lia Lqa.
From stdpp Require Import base list.
Import ListNotations.

Local Open Scope Q_scope.
Set Warnings "-notation-for-abbreviation".

(* ================================================================== *)
(** ** misc.h: [unnormalized_logProb] and the floating-point environment *)
(* ================================================================== *)

(** The four rounding directions of [<fenv.h>]. *)
Inductive rounding : Type :=
  | FE_TONEAREST
  | FE_DOWNWARD
  | FE_UPWARD
  | FE_TOWARDZERO.

Module Misc.

(** Computations that read and write the thread's rounding direction. *)
Definition FE (A : Type) : Type := rounding -> A * rounding.

Definition ret {A} (a : A) : FE A := fun m => (a, m).
Definition bind {A B} (c : FE A) (k : A -> FE B) : FE B :=
  fun m => let (a, m') := c m in k a m'.

Notation "'do' x <- c ; k" := (bind c (fun x => k))
  (at level 10, x name, c at level 100, k at level 200).
Notation "'run' c ; k" := (bind c (fun _ => k))
  (at level 10, c at level 100, k at level 200).

Definition fegetround : FE rounding := fun m => (m, m).
Definition fesetround (r : rounding) : FE unit := fun _ => (tt, r).

(** [for (int i = 0; i < dim; i++) res = body i res]. *)
Fixpoint for_loop {A} (from n : nat) (body : nat -> A -> FE A) (res : A) : FE A :=
  match n with
  | O => ret res
  | S n' => do res' <- body from res ; for_loop (S from) n' body res'
  end.

Section Arith.

(** [rnd m q]: the double that the exact result [q] is rounded to under
    direction [m]. *)
Variable rnd : rounding -> Q -> Q.

(** [minuslogFactorial] lives in [isoMath.h], which is not among the
    sources; it is taken as a parameter that may depend on the rounding
    direction in force when it is called. *)
Variable minuslogFactorial : rounding -> Z -> Q.

Definition fadd (x y : Q) : FE Q := fun m => (rnd m (x + y), m).
Definition fmul (x y : Q) : FE Q := fun m => (rnd m (x * y), m).
Definition call_minuslogFactorial (n : Z) : FE Q :=
  fun m => (minuslogFactorial m n, m).

(** [conf[i]] and [logProbs[i]] *)
Definition conf_at (conf : list Z) (i : nat) : Z := nth i conf 0%Z.
Definition logProb_at (logProbs : list Q) (i : nat) : Q := nth i logProbs 0.

Definition unnormalized_logProb (conf : list Z) (logProbs : list Q) (dim : nat)
  : FE Q :=
  let res := 0 in
  do curr_method <- fegetround ;
  run fesetround FE_TOWARDZERO ;
  do res <- for_loop 0 dim (fun i res =>
              do t <- call_minuslogFactorial (conf_at conf i) ;
              fadd res t) res ;
  run fesetround FE_UPWARD ;
  do res <- for_loop 0 dim (fun i res =>
              do t <- fmul (inject_Z (conf_at conf i)) (logProb_at logProbs i) ;
              fadd res t) res ;
  run fesetround curr_method ;
  ret res.

(** *** The two passes, as the specification words them *)

(** First pass: the [-log c_i!] terms, every sum rounded toward zero. *)
Fixpoint pass_towardzero (conf : list Z) (from n : nat) (res : Q) : Q :=
  match n with
  | O => res
  | S n' =>
      pass_towardzero conf (S from) n'
        (rnd FE_TOWARDZERO
           (res + minuslogFactorial FE_TOWARDZERO (conf_at conf from)))
  end.

(** Second pass: the [c_i * log p_i] terms, every product and every sum
    rounded upward. *)
Fixpoint pass_upward (conf : list Z) (logProbs : list Q) (from n : nat) (res : Q) : Q :=
  match n with
  | O => res
  | S n' =>
      pass_upward conf logProbs (S from) n'
        (rnd FE_UPWARD
           (res + rnd FE_UPWARD
                    (inject_Z (conf_at conf from) * logProb_at logProbs from)))
  end.

(** The sum of the same terms without any rounding: [exact_terms] term by
    term, [exact_neg] and [exact_pos] pass by pass. *)
Fixpoint exact_terms (conf : list Z) (logProbs : list Q) (from n : nat) : Q :=
  match n with
  | O => 0
  | S n' =>
      (minuslogFactorial FE_TOWARDZERO (conf_at conf from)
       + inject_Z (conf_at conf from) * logProb_at logProbs from)
      + exact_terms conf logProbs (S from) n'
  end.

Fixpoint exact_neg (conf : list Z) (from n : nat) : Q :=
  match n with
  | O => 0
  | S n' => minuslogFactorial FE_TOWARDZERO (conf_at conf from)
            + exact_neg conf (S from) n'
  end.

Fixpoint exact_pos (conf : list Z) (logProbs : list Q) (from n : nat) : Q :=
  match n with
  | O => 0
  | S n' => inject_Z (conf_at conf from) * logProb_at logProbs from
            + exact_pos conf logProbs (S from) n'
  end.

End Arith.

End Misc.

(** A concrete arithmetic on which the development is exercised: results are
    rounded to multiples of 2^-20 in the direction asked for. *)
Definition grid : Z := 1048576.

Definition grid_rnd (m : rounding) (q : Q) : Q :=
  let x := q * inject_Z grid in
  match m with
  | FE_UPWARD => Qceiling x # 1048576
  | FE_DOWNWARD => Qfloor x # 1048576
  | FE_TOWARDZERO =>
      if Qle_bool 0 x then Qfloor x # 1048576 else Qceiling x # 1048576
  | FE_TONEAREST => Qfloor (x + (1 # 2)) # 1048576
  end.

(** [-log n!] to six decimals for the first few [n], cruder below. *)
Definition table_minuslogFactorial (_ : rounding) (n : Z) : Q :=
  match n with
  | 2%Z => - (693147 # 1000000)
  | 3%Z => - (1791759 # 1000000)
  | 4%Z => - (3178054 # 1000000)
  | Zpos p => if (Z.pos p <? 2)%Z then 0 else - inject_Z (2 * Z.pos p)
  | _ => 0
  end.

(* ================================================================== *)
(** ** Doubles of the generators *)
(* ================================================================== *)

(** A log-probability: a finite value or minus infinity. *)
Inductive dbl : Type :=
  | NInf
  | Fin (q : Q).

(** [x + y], with the sum of two finite values as the number it is; the
    sum as binary64 stores it is [Rounded.add]. *)
Definition dadd (x y : dbl) : dbl :=
  match x, y with
  | Fin a, Fin b => Fin (a + b)
  | _, _ => NInf
  end.

(** [x >= y] *)
Definition dge (x y : dbl) : bool :=
  match x, y with
  | _, NInf => true
  | NInf, Fin _ => false
  | Fin a, Fin b => Qle_bool b a
  end.

(** Numerical equality of doubles. *)
Definition deq (x y : dbl) : Prop :=
  match x, y with
  | NInf, NInf => True
  | Fin a, Fin b => a == b
  | _, _ => False
  end.

(* ================================================================== *)
(** ** The precalculated marginal *)
(* ================================================================== *)

(** Modelled from the spec: [PrecalculatedMarginal] ([marginalTrek++.h] is
    not among the sources).  Section 3 gives it as parallel arrays indexed
    [0 .. M-1]: [conf[i]], [lprob[i]], [mass[i]], [eprob[i]], sorted by
    decreasing [lprob], index 0 the mode.  The walks of the generators read
    [get_lProb] one entry past the last stored configuration to notice the
    end of a sweep, and the fast walk reads the mass and probability there
    as well: the model answers minus infinity for the log-probability and 0
    for the other two. *)
Record PrecalculatedMarginal : Type := mkMarginal {
  confs : list (list Z);
  lProbs : list Q;
  masses : list Q;
  eProbs : list Q
}.

Definition get_no_confs (m : PrecalculatedMarginal) : nat := length (lProbs m).

Definition get_conf (m : PrecalculatedMarginal) (idx : nat) : list Z :=
  nth idx (confs m) [].

Definition get_lProb (m : PrecalculatedMarginal) (idx : nat) : dbl :=
  match lProbs m !! idx with
  | Some q => Fin q
  | None => NInf
  end.

Definition get_mass (m : PrecalculatedMarginal) (idx : nat) : Q :=
  nth idx (masses m) 0.

Definition get_eProb (m : PrecalculatedMarginal) (idx : nat) : Q :=
  nth idx (eProbs m) 0.

Definition no_marginal : PrecalculatedMarginal := mkMarginal [] [] [] [].

(* ================================================================== *)
(** ** isoSpec++.h: the threshold generators *)
(* ================================================================== *)

(** The fields of [Iso], [IsoGenerator] and [IsoThresholdGenerator] that the
    walk uses.  [partialLProbs], [partialMasses] and [partialExpProbs] have
    [dimNumber + 1] cells, [maxConfsLPSum] has [dimNumber - 1]. *)
Record IsoThresholdGenerator : Type := mkGen {
  dimNumber : nat;
  isotopeNumbers : list nat;
  partialLProbs : list dbl;
  partialMasses : list Q;
  partialExpProbs : list Q;
  counter : list nat;
  maxConfsLPSum : list dbl;
  Lcutoff : dbl;
  marginalResults : list PrecalculatedMarginal
}.

(** [marginalResults[ii]] *)
Definition marginal (g : IsoThresholdGenerator) (ii : nat) : PrecalculatedMarginal :=
  nth ii (marginalResults g) no_marginal.

(** Array cells: reads, and the writes [a[i] = v] as record updates. *)
Definition pL (g : IsoThresholdGenerator) (i : nat) : dbl := nth i (partialLProbs g) NInf.
Definition pM (g : IsoThresholdGenerator) (i : nat) : Q := nth i (partialMasses g) 0.
Definition pE (g : IsoThresholdGenerator) (i : nat) : Q := nth i (partialExpProbs g) 0.
Definition cnt (g : IsoThresholdGenerator) (i : nat) : nat := nth i (counter g) 0%nat.
Definition maxLP (g : IsoThresholdGenerator) (i : nat) : dbl := nth i (maxConfsLPSum g) NInf.

Definition set_pL (i : nat) (v : dbl) (g : IsoThresholdGenerator) : IsoThresholdGenerator :=
  mkGen (dimNumber g) (isotopeNumbers g) (<[i:=v]> (partialLProbs g))
        (partialMasses g) (partialExpProbs g) (counter g) (maxConfsLPSum g)
        (Lcutoff g) (marginalResults g).

Definition set_pM (i : nat) (v : Q) (g : IsoThresholdGenerator) : IsoThresholdGenerator :=
  mkGen (dimNumber g) (isotopeNumbers g) (partialLProbs g)
        (<[i:=v]> (partialMasses g)) (partialExpProbs g) (counter g)
        (maxConfsLPSum g) (Lcutoff g) (marginalResults g).

Definition set_pE (i : nat) (v : Q) (g : IsoThresholdGenerator) : IsoThresholdGenerator :=
  mkGen (dimNumber g) (isotopeNumbers g) (partialLProbs g)
        (partialMasses g) (<[i:=v]> (partialExpProbs g)) (counter g)
        (maxConfsLPSum g) (Lcutoff g) (marginalResults g).

Definition set_cnt (i : nat) (v : nat) (g : IsoThresholdGenerator) : IsoThresholdGenerator :=
  mkGen (dimNumber g) (isotopeNumbers g) (partialLProbs g)
        (partialMasses g) (partialExpProbs g) (<[i:=v]> (counter g))
        (maxConfsLPSum g) (Lcutoff g) (marginalResults g).

(** [IsoGenerator::lprob], [mass], [eprob] *)
Definition lprob (g : IsoThresholdGenerator) : dbl := pL g 0.
Definition mass (g : IsoThresholdGenerator) : Q := pM g 0.
Definition eprob (g : IsoThresholdGenerator) : Q := pE g 0.

(** [memcpy(space + off, src, k * sizeof(int))]: cells [off .. off+k-1] of
    the caller's buffer take the first [k] integers found at [src]. *)
Fixpoint memcpy (space : list Z) (off : nat) (src : list Z) (k : nat) : list Z :=
  match k with
  | O => space
  | S k' => memcpy (<[off:=nth 0 src 0%Z]> space) (S off) (tl src) k'
  end.

(** [IsoThresholdGenerator::get_conf_signature]: the loop over [ii], with
    [off] the distance [space] has been advanced by. *)
Fixpoint conf_signature_loop (g : IsoThresholdGenerator) (ii n off : nat)
    (space : list Z) : list Z :=
  match n with
  | O => space
  | S n' =>
      let k := nth ii (isotopeNumbers g) 0%nat in
      conf_signature_loop g (S ii) n' (off + k)
        (memcpy space off (get_conf (marginal g ii) (cnt g ii)) k)
  end.

Definition get_conf_signature (g : IsoThresholdGenerator) (space : list Z) : list Z :=
  conf_signature_loop g 0 (dimNumber g) 0 space.

(** One round of [recalc]'s loop body. *)
Definition recalc_step (idx : nat) (g : IsoThresholdGenerator) : IsoThresholdGenerator :=
  let g := set_pL idx (dadd (pL g (S idx)) (get_lProb (marginal g idx) (cnt g idx))) g in
  let g := set_pM idx (pM g (S idx) + get_mass (marginal g idx) (cnt g idx)) g in
  set_pE idx (pE g (S idx) * get_eProb (marginal g idx) (cnt g idx)) g.

(** [recalc(idx)]: [for (; idx >= 0; idx--)]. *)
Fixpoint recalc (idx : nat) (g : IsoThresholdGenerator) : IsoThresholdGenerator :=
  match idx with
  | O => recalc_step 0 g
  | S idx' => recalc idx' (recalc_step idx g)
  end.

(** Modelled from the spec: [terminate_search] (defined in [isoSpec++.cpp],
    which is not among the sources).  Section 5: it sets the internal
    counter into an exhausted state; here every counter is moved to the end
    of its marginal. *)
Definition terminate_search (g : IsoThresholdGenerator) : IsoThresholdGenerator :=
  mkGen (dimNumber g) (isotopeNumbers g) (partialLProbs g)
        (partialMasses g) (partialExpProbs g)
        (map get_no_confs (firstn (length (counter g)) (marginalResults g)))
        (maxConfsLPSum g) (Lcutoff g) (marginalResults g).

(** *** [IsoThresholdGeneratorFast] *)

(** The object of the base class plus the three cursors into the arrays of
    marginal 0, kept as offsets from the arrays' first cells.  The aliases
    [partialLProbs_first], [partialLProbs_second] (and those of the masses
    and probabilities) and [counter_first] never move: they are cells 0 and 1
    of the arrays of the base object, and are read and written as such. *)
Record IsoThresholdGeneratorFast : Type := mkFast {
  base : IsoThresholdGenerator;
  lProbs_ptr : nat;
  mass_ptr : nat;
  exp_ptr : nat
}.

Module Fast.

(** The [while (idx < dimNumber-1)] loop; [n] counts the rounds that are
    left, [dimNumber - 1 - idx].  [cntr_ptr] is [&counter[idx]] throughout. *)
Fixpoint carry (n idx : nat) (g : IsoThresholdGenerator)
    : bool * IsoThresholdGenerator :=
  match n with
  | O => (false, terminate_search g)
  | S n' =>
      let g := set_cnt idx 0 g in
      let idx := S idx in
      let g := set_cnt idx (S (cnt g idx)) g in
      let g := set_pL idx
                 (dadd (pL g (S idx)) (get_lProb (marginal g idx) (cnt g idx))) g in
      if dge (dadd (pL g idx) (maxLP g (idx - 1))) (Lcutoff g) then
        let g := set_pM idx
                   (pM g (S idx) + get_mass (marginal g idx) (cnt g idx)) g in
        let g := set_pE idx
                   (pE g (S idx) * get_eProb (marginal g idx) (cnt g idx)) g in
        (true, recalc (idx - 1) g)
      else carry n' idx g
  end.

Definition advanceToNextConfiguration (f : IsoThresholdGeneratorFast)
    : bool * IsoThresholdGeneratorFast :=
  let g := base f in
  let g := set_cnt 0 (S (cnt g 0)) g in
  let g := set_pL 0 (dadd (pL g 1) (get_lProb (marginal g 0) (lProbs_ptr f))) g in
  let lProbs_ptr' := S (lProbs_ptr f) in
  let mass_ptr' := S (mass_ptr f) in
  let exp_ptr' := S (exp_ptr f) in
  if dge (pL g 0) (Lcutoff g) then
    let g := set_pM 0 (pM g 1 + get_mass (marginal g 0) mass_ptr') g in
    let g := set_pE 0 (pE g 1 * get_eProb (marginal g 0) exp_ptr') g in
    (true, mkFast g lProbs_ptr' mass_ptr' exp_ptr')
  else
    let '(r, g) := carry (dimNumber g - 1) 0 g in
    (r, mkFast g 1 1 1).

(** The override with the empty body. *)
Definition get_conf_signature (f : IsoThresholdGeneratorFast) (space : list Z)
    : list Z := space.

End Fast.

(** *** [IsoThresholdGeneratorCntr] *)

Module Cntr.

Definition recalc_step (idx : nat) (g : IsoThresholdGenerator) : IsoThresholdGenerator :=
  set_pL idx (dadd (pL g (S idx)) (get_lProb (marginal g idx) (cnt g idx))) g.

Fixpoint recalc (idx : nat) (g : IsoThresholdGenerator) : IsoThresholdGenerator :=
  match idx with
  | O => recalc_step 0 g
  | S idx' => recalc idx' (recalc_step idx g)
  end.

Fixpoint carry (n idx : nat) (g : IsoThresholdGenerator)
    : bool * IsoThresholdGenerator :=
  match n with
  | O => (false, terminate_search g)
  | S n' =>
      let g := set_cnt idx 0 g in
      let idx := S idx in
      let g := set_cnt idx (S (cnt g idx)) g in
      let g := set_pL idx
                 (dadd (pL g (S idx)) (get_lProb (marginal g idx) (cnt g idx))) g in
      if dge (dadd (pL g idx) (maxLP g (idx - 1))) (Lcutoff g) then
        (true, recalc (idx - 1) g)
      else carry n' idx g
  end.

Definition advanceToNextConfiguration (f : IsoThresholdGeneratorFast)
    : bool * IsoThresholdGeneratorFast :=
  let g := base f in
  let g := set_cnt 0 (S (cnt g 0)) g in
  let g := set_pL 0 (dadd (pL g 1) (get_lProb (marginal g 0) (lProbs_ptr f))) g in
  let lProbs_ptr' := S (lProbs_ptr f) in
  if dge (pL g 0) (Lcutoff g) then
    (true, mkFast g lProbs_ptr' (mass_ptr f) (exp_ptr f))
  else
    let '(r, g) := carry (dimNumber g - 1) 0 g in
    (r, mkFast g 1 (mass_ptr f) (exp_ptr f)).

Definition get_conf_signature (f : IsoThresholdGeneratorFast) (space : list Z)
    : list Z := space.

End Cntr.

(** *** The base walk *)

Module Base.

(** Modelled from the spec: [IsoThresholdGenerator::advanceToNextConfiguration]
    (declared in the header, defined in [isoSpec++.cpp], which is not among
    the sources).  Section 4.8, "Advance algorithm": increment [counter[0]];
    [partialLProb[0] = partialLProb[1] + lprob_0[counter[0]]]; at or above
    the cutoff, update mass and probability likewise and return true;
    otherwise carry: reset [counter[d]], increment [counter[d+1]], cascade
    while [partialLProb[d+1] + maxLPSum[d]] is below the cutoff, and on
    acceptance refresh the cells below; past the top dimension, exhausted. *)
Fixpoint carry (n idx : nat) (g : IsoThresholdGenerator)
    : bool * IsoThresholdGenerator :=
  match n with
  | O => (false, terminate_search g)
  | S n' =>
      let g := set_cnt idx 0 g in
      let g := set_cnt (S idx) (S (cnt g (S idx))) g in
      let g := set_pL (S idx)
                 (dadd (pL g (S (S idx)))
                       (get_lProb (marginal g (S idx)) (cnt g (S idx)))) g in
      if dge (dadd (pL g (S idx)) (maxLP g idx)) (Lcutoff g) then
        (true, recalc (S idx) g)
      else carry n' (S idx) g
  end.

Definition advanceToNextConfiguration (g : IsoThresholdGenerator)
    : bool * IsoThresholdGenerator :=
  let g := set_cnt 0 (S (cnt g 0)) g in
  let g := set_pL 0 (dadd (pL g 1) (get_lProb (marginal g 0) (cnt g 0))) g in
  if dge (pL g 0) (Lcutoff g) then
    let g := set_pM 0 (pM g 1 + get_mass (marginal g 0) (cnt g 0)) g in
    let g := set_pE 0 (pE g 1 * get_eProb (marginal g 0) (cnt g 0)) g in
    (true, g)
  else carry (dimNumber g - 1) 0 g.

End Base.

(** *** Construction *)

(** Modelled from the spec: the molecule description [Iso] after
    [setupMarginals] ([isoSpec++.cpp] and [marginalTrek++.h] are not among
    the sources).  Each element slot is given by the table of all its
    marginal configurations in the order the trek produces them, by
    decreasing log-probability, the mode first (section 4.4). *)
Record Iso : Type := mkIso {
  iso_dimNumber : nat;
  iso_isotopeNumbers : list nat;
  iso_marginals : list PrecalculatedMarginal
}.

(** [Marginal::getModeLProb] *)
Definition getModeLProb (m : PrecalculatedMarginal) : Q := nth 0 (lProbs m) 0.

(** [Iso::modeLProb]: the sum of the modes' log-probabilities. *)
Definition modeLProb (iso : Iso) : Q :=
  fold_right (fun m acc => getModeLProb m + acc) 0 (iso_marginals iso).

(** [x - q] *)
Definition dshift (x : dbl) (q : Q) : dbl :=
  match x with
  | NInf => NInf
  | Fin a => Fin (a - q)
  end.

(** Modelled from the spec: the construction of a [PrecalculatedMarginal]
    (section 4.5): the trek is extracted until it first dips below the
    cutoff; what was extracted before is stored. *)
Fixpoint above_cutoff (cutoff : dbl) (l : list Q) : nat :=
  match l with
  | [] => O
  | q :: l' => if dge (Fin q) cutoff then S (above_cutoff cutoff l') else O
  end.

Definition precalculate (m : PrecalculatedMarginal) (cutoff : dbl)
    : PrecalculatedMarginal :=
  let n := above_cutoff cutoff (lProbs m) in
  mkMarginal (firstn n (confs m)) (firstn n (lProbs m))
             (firstn n (masses m)) (firstn n (eProbs m)).

(** [maxConfsLPSum[0] = mode_0], [maxConfsLPSum[ii] = maxConfsLPSum[ii-1] + mode_ii]:
    the running sums of [modes]. *)
Fixpoint running_sums_from (acc : dbl) (modes : list dbl) : list dbl :=
  match modes with
  | [] => []
  | x :: modes' => dadd acc x :: running_sums_from (dadd acc x) modes'
  end.

Definition running_sums (modes : list dbl) : list dbl :=
  match modes with
  | [] => []
  | x :: modes' => x :: running_sums_from x modes'
  end.

Section Construction.

(** The natural logarithm of [<cmath>]. *)
Variable flog : Q -> dbl.

(** Modelled from the spec: the cutoff the constructor derives from the
    threshold (section 6, "Threshold semantics"). *)
Definition threshold_Lcutoff (iso : Iso) (threshold : Q) (absolute : bool) : dbl :=
  if absolute then flog threshold
  else dadd (flog threshold) (Fin (modeLProb iso)).

(** Modelled from the spec: the constructor of [IsoThresholdGenerator]
    (declared in the header, defined in [isoSpec++.cpp], which is not among
    the sources).  Section 4.8, "Construction": every marginal is
    precalculated with the cutoff [Lcutoff - maxOther], [maxOther] being the
    joint mode's log-probability minus this element's; [maxConfsLPSum] holds
    the running sums of the modes; all counters are 0; the cells of index
    [dimNumber] of the partial arrays are 0, 0 and 1, and the cells below
    follow by the recurrence. *)
Definition IsoThresholdGenerator_ctor (iso : Iso) (threshold : Q) (absolute : bool)
    : IsoThresholdGenerator :=
  let D := iso_dimNumber iso in
  let Lc := threshold_Lcutoff iso threshold absolute in
  let ms := map (fun m => precalculate m
                            (dshift Lc (modeLProb iso - getModeLProb m)))
                (iso_marginals iso) in
  let g := mkGen D (iso_isotopeNumbers iso)
                 (repeat (Fin 0) (S D)) (repeat 0 (S D)) (repeat 1 (S D))
                 (repeat 0%nat D)
                 (running_sums
                    (map (fun m => get_lProb m 0) (firstn (D - 1) ms)))
                 Lc ms in
  match D with
  | O => g
  | S d => recalc d g
  end.

(** The constructor of [IsoThresholdGeneratorFast]: the base constructor,
    then the three cursors at the first cells of marginal 0's arrays. *)
Definition IsoThresholdGeneratorFast_ctor (iso : Iso) (threshold : Q)
    (absolute : bool) : IsoThresholdGeneratorFast :=
  mkFast (IsoThresholdGenerator_ctor iso threshold absolute) 0 0 0.

(** [IsoThresholdGeneratorCntr]'s constructor only calls the one of the fast
    generator. *)
Definition IsoThresholdGeneratorCntr_ctor (iso : Iso) (threshold : Q)
    (absolute : bool) : IsoThresholdGeneratorFast :=
  IsoThresholdGeneratorFast_ctor iso threshold absolute.

End Construction.

(** *** Driving a generator *)




(** The state after [n] calls, and what the [n]-th of them answered. *)
Fixpoint after {S : Type} (advance : S -> bool * S) (n : nat) (s : S) : bool * S :=
  match n with
  | O => (true, s)
  | Datatypes.S n' => advance (snd (after advance n' s))
  end.

(* ================================================================== *)
(** ** The walk with every operation rounded *)
(* ================================================================== *)




(** [IsoThresholdGeneratorFast] once more, now with the rounding [fl] of
    the machine applied after every addition and multiplication of the
    source.  With [fl] the identity these are the definitions of
    [Module Fast]. *)
Module Rounded.

Section Walk.

Variable fl : Q -> Q.

(** [x + y] on [double] *)
Definition add (x y : dbl) : dbl :=
  match x, y with
  | Fin a, Fin b => Fin (fl (a + b))
  | _, _ => NInf
  end.

Definition recalc_step (idx : nat) (g : IsoThresholdGenerator) : IsoThresholdGenerator :=
  let g := set_pL idx (add (pL g (S idx)) (get_lProb (marginal g idx) (cnt g idx))) g in
  let g := set_pM idx (fl (pM g (S idx) + get_mass (marginal g idx) (cnt g idx))) g in
  set_pE idx (fl (pE g (S idx) * get_eProb (marginal g idx) (cnt g idx))) g.

Fixpoint recalc (idx : nat) (g : IsoThresholdGenerator) : IsoThresholdGenerator :=
  match idx with
  | O => recalc_step 0 g
  | S idx' => recalc idx' (recalc_step idx g)
  end.

Fixpoint carry (n idx : nat) (g : IsoThresholdGenerator)
    : bool * IsoThresholdGenerator :=
  match n with
  | O => (false, terminate_search g)
  | S n' =>
      let g := set_cnt idx 0 g in
      let idx := S idx in
      let g := set_cnt idx (S (cnt g idx)) g in
      let g := set_pL idx
                 (add (pL g (S idx)) (get_lProb (marginal g idx) (cnt g idx))) g in
      if dge (add (pL g idx) (maxLP g (idx - 1))) (Lcutoff g) then
        let g := set_pM idx
                   (fl (pM g (S idx) + get_mass (marginal g idx) (cnt g idx))) g in
        let g := set_pE idx
                   (fl (pE g (S idx) * get_eProb (marginal g idx) (cnt g idx))) g in
        (true, recalc (idx - 1) g)
      else carry n' idx g
  end.

Definition advanceToNextConfiguration (f : IsoThresholdGeneratorFast)
    : bool * IsoThresholdGeneratorFast :=
  let g := base f in
  let g := set_cnt 0 (S (cnt g 0)) g in
  let g := set_pL 0 (add (pL g 1) (get_lProb (marginal g 0) (lProbs_ptr f))) g in
  let lProbs_ptr' := S (lProbs_ptr f) in
  let mass_ptr' := S (mass_ptr f) in
  let exp_ptr' := S (exp_ptr f) in
  if dge (pL g 0) (Lcutoff g) then
    let g := set_pM 0 (fl (pM g 1 + get_mass (marginal g 0) mass_ptr')) g in
    let g := set_pE 0 (fl (pE g 1 * get_eProb (marginal g 0) exp_ptr')) g in
    (true, mkFast g lProbs_ptr' mass_ptr' exp_ptr')
  else
    let '(r, g) := carry (dimNumber g - 1) 0 g in
    (r, mkFast g 1 1 1).

End Walk.

End Rounded.

(* ================================================================== *)
(** ** isoSpec++.h: the signature of the ordered generator *)
(* ================================================================== *)

Module Ordered.

(** The fields [get_conf_signature] touches.  [topConf] is the integer part
    of the record [topConf] points to ([getConf (topConf)]): one index per
    element slot into that slot's [confs()]; [marginalResults] holds, per
    slot, the vector [confs()] of the trek. *)
Record IsoOrderedGenerator : Type := mkOrdered {
  dimNumber : nat;
  isotopeNumbers : list nat;
  marginalResults : list (list (list Z));
  topConf : list Z;
  ccount : Z
}.

Definition set_topConf (c : list Z) (g : IsoOrderedGenerator) : IsoOrderedGenerator :=
  mkOrdered (dimNumber g) (isotopeNumbers g) (marginalResults g) c (ccount g).

(** [marginalResults[ii]->confs()[z]] *)
Definition confs_at (g : IsoOrderedGenerator) (ii : nat) (z : Z) : list Z :=
  if (z <? 0)%Z then []
  else nth (Z.to_nat z) (nth ii (marginalResults g) []) [].

(** [c[i] += d] *)
Definition bump (i : nat) (d : Z) (c : list Z) : list Z :=
  <[i := (nth i c 0 + d)%Z]> c.

Fixpoint signature_loop (g : IsoOrderedGenerator) (c : list Z) (ii n off : nat)
    (space : list Z) : list Z :=
  match n with
  | O => space
  | S n' =>
      let k := nth ii (isotopeNumbers g) 0%nat in
      signature_loop g c (S ii) n' (off + k)
        (memcpy space off (confs_at g ii (nth ii c 0%Z)) k)
  end.

(** The buffer after the call, and the generator after the call. *)
Definition get_conf_signature (g : IsoOrderedGenerator) (space : list Z)
    : list Z * IsoOrderedGenerator :=
  let c := topConf g in
  let c := if (0 <=? ccount g)%Z then bump (Z.to_nat (ccount g)) (-1) c else c in
  let space := signature_loop g c 0 (dimNumber g) 0 space in
  let c := if (0 <=? ccount g)%Z then bump (Z.to_nat (ccount g)) 1 c else c in
  (space, set_topConf c g).

End Ordered.

(* ================================================================== *)
(** ** Molecules the development is exercised on *)
(* ================================================================== *)

(** Natural logarithm: six decimals at the thresholds used below, and within
    [log 2] of the true value elsewhere; [log] of a non-positive number is
    minus infinity. *)
Definition log6 (x : Q) : dbl :=
  if Qle_bool x 0 then NInf
  else if Qeq_bool x 1 then Fin 0
  else if Qeq_bool x (1 # 100) then Fin (- (4605170 # 1000000))
  else if Qeq_bool x (1 # 1000000) then Fin (- (13815511 # 1000000))
  else if Qeq_bool x (1 # 1000000000) then Fin (- (20723266 # 1000000))
  else if Qle_bool x 1
       then Fin (- (inject_Z (Z.log2 (Z.pos (Qden x) / Qnum x)) * (693147 # 1000000)))
       else Fin (inject_Z (Z.log2 (Qnum x / Z.pos (Qden x))) * (693147 # 1000000)).

(** One carbon atom: 12C and 13C. *)
Definition carbon1 : PrecalculatedMarginal :=
  mkMarginal [[1; 0]; [0; 1]]%Z
             [- (10847 # 1000000); - (4529320 # 1000000)]
             [12; 13003355 # 1000000]
             [989212 # 1000000; 10788 # 1000000].

(** One hydrogen atom: 1H and 2H. *)
Definition hydrogen1 : PrecalculatedMarginal :=
  mkMarginal [[1; 0]; [0; 1]]%Z
             [- (115 # 1000000); - (9070503 # 1000000)]
             [1007825 # 1000000; 2014102 # 1000000]
             [999885 # 1000000; 115 # 1000000].

(** Two carbon atoms. *)
Definition carbon2 : PrecalculatedMarginal :=
  mkMarginal [[2; 0]; [1; 1]; [0; 2]]%Z
             [- (21693 # 1000000); - (3847020 # 1000000); - (9058640 # 1000000)]
             [24; 25003355 # 1000000; 26006710 # 1000000]
             [978540 # 1000000; 21343 # 1000000; 116 # 1000000].

(** The molecules C, CH and C2H. *)
Definition iso_C : Iso := mkIso 1 [2%nat] [carbon1].
Definition iso_CH : Iso := mkIso 2 [2%nat; 2%nat] [carbon1; hydrogen1].
Definition iso_C2H : Iso := mkIso 2 [2%nat; 2%nat] [carbon2; hydrogen1].







(* ================================================================== *)
(** ** Vocabulary of the statements *)
(* ================================================================== *)

(** What the walk never writes: the dimension, the marginals, the cutoff,
    the running sums, and the lengths of the arrays. *)
Definition frame (g g' : IsoThresholdGenerator) : Prop :=
  dimNumber g' = dimNumber g
  /\ marginalResults g' = marginalResults g
  /\ Lcutoff g' = Lcutoff g
  /\ maxConfsLPSum g' = maxConfsLPSum g
  /\ isotopeNumbers g' = isotopeNumbers g
  /\ length (partialLProbs g') = length (partialLProbs g).

(** Two objects that agree on everything the log-probability walk reads. *)
Definition lsim (g h : IsoThresholdGenerator) : Prop :=
  dimNumber g = dimNumber h
  /\ marginalResults g = marginalResults h
  /\ Lcutoff g = Lcutoff h
  /\ maxConfsLPSum g = maxConfsLPSum h
  /\ counter g = counter h
  /\ partialLProbs g = partialLProbs h.

(** What a fast and a count-only generator share. *)
Definition fsim (f c : IsoThresholdGeneratorFast) : Prop :=
  lsim (base f) (base c) /\ lProbs_ptr f = lProbs_ptr c.

(** [allDim]: the isotope numbers of the slots from [ii] on, summed. *)
Fixpoint isotopes_from (g : IsoThresholdGenerator) (ii n : nat) : nat :=
  match n with
  | O => O
  | S n' => nth ii (isotopeNumbers g) 0%nat + isotopes_from g (S ii) n'
  end.

(** [Iso::allDim] *)
Definition allDim (g : IsoThresholdGenerator) : nat :=
  isotopes_from g 0 (dimNumber g).

(** The isotope counts of the current configuration, slot after slot. *)
Definition current_confs (g : IsoThresholdGenerator) (ii n : nat) : list Z :=
  concat (map (fun ii => get_conf (marginal g ii) (cnt g ii)) (seq ii n)).

(** A run of [memcpy]s is a list of single-cell writes. *)
Definition apply_writes (W : list (nat * Z)) (l : list Z) : list Z :=
  fold_left (fun l w => <[fst w := snd w]> l) W l.

(** The writes of one [memcpy]. *)
Fixpoint memcpy_writes (off : nat) (src : list Z) (k : nat) : list (nat * Z) :=
  match k with
  | O => []
  | S k' => (off, nth 0 src 0%Z) :: memcpy_writes (S off) (tl src) k'
  end.

(** The value the last write to cell [q] stores, if any write goes there. *)
Fixpoint last_write (W : list (nat * Z)) (q : nat) : option Z :=
  match W with
  | [] => None
  | (p, v) :: W' =>
      match last_write W' q with
      | Some v' => Some v'
      | None => if Nat.eqb p q then Some v else None
      end
  end.

Module OrderedWrites.

Import Ordered.

(** The writes of [signature_loop]. *)
Fixpoint signature_writes (g : IsoOrderedGenerator) (c : list Z) (ii n off : nat)
    : list (nat * Z) :=
  match n with
  | O => []
  | S n' =>
      let k := nth ii (isotopeNumbers g) 0%nat in
      memcpy_writes off (confs_at g ii (nth ii c 0%Z)) k
      ++ signature_writes g c (S ii) n' (off + k)
  end.

End OrderedWrites.

(* ================================================================== *)
(** ** misc.h: sums over a configuration *)
(* ================================================================== *)

Module MiscConf.

(** Entry [z] of the vector [valuesContainer[i]] points to, [z] an [int]. *)
Definition value_at (valuesContainer : list (list Q)) (i : nat) (z : Z) : Q :=
  if (z <? 0)%Z then 0 else nth (Z.to_nat z) (nth i valuesContainer []) 0.

Section Sums.

(** The rounding of one [+] or [*] on [double]. *)
Variable fl : Q -> Q.

(** The loop of [combinedSum], from slot [i] with [n] slots to go:
    [res += v] stores the rounded sum. *)
Fixpoint combinedSum_loop (conf : list Z) (valuesContainer : list (list Q))
    (i n : nat) (res : Q) : Q :=
  match n with
  | O => res
  | S n' =>
      combinedSum_loop conf valuesContainer (S i) n'
        (fl (res + value_at valuesContainer i (nth i conf 0%Z)))
  end.

Definition combinedSum (conf : list Z) (valuesContainer : list (list Q))
    (dimNumber : nat) : Q :=
  combinedSum_loop conf valuesContainer 0 dimNumber 0.

(** The loop of [mass]: [res += conf[i] * masses[i]] rounds the product,
    then the sum.  The conversion of the [int] to [double] is exact. *)
Fixpoint mass_loop (conf : list Z) (masses : list Q) (i n : nat) (res : Q) : Q :=
  match n with
  | O => res
  | S n' =>
      mass_loop conf masses (S i) n'
        (fl (res + fl (inject_Z (nth i conf 0%Z) * nth i masses 0)))
  end.

Definition mass (conf : list Z) (masses : list Q) (dim : nat) : Q :=
  mass_loop conf masses 0 dim 0.

End Sums.

(** [std::tuple<double,double,int*>] *)
Definition tuple3 : Type := Q * Q * list Z.

Definition get1 (t : tuple3) : Q := snd (fst t).

(** [std::get<1>(t1) > std::get<1>(t2)] *)
Definition tupleCmp (t1 t2 : tuple3) : bool := negb (Qle_bool (get1 t1) (get1 t2)).

End MiscConf.

(* ================================================================== *)
(** ** Vocabulary of the further statements *)
(* ================================================================== *)

(** Cell [j] of the three partial arrays follows from cell [j+1] and the
    entry of marginal [j] under [counter[j]]. *)
Definition lp_cell (g : IsoThresholdGenerator) (j : nat) : Prop :=
  pL g j = dadd (pL g (S j)) (get_lProb (marginal g j) (cnt g j)).

Definition cell_ok (g : IsoThresholdGenerator) (j : nat) : Prop :=
  lp_cell g j
  /\ pM g j = pM g (S j) + get_mass (marginal g j) (cnt g j)
  /\ pE g j = pE g (S j) * get_eProb (marginal g j) (cnt g j).

(** The arrays have the sizes the generator allocates. *)
Definition sized (g : IsoThresholdGenerator) : Prop :=
  length (partialLProbs g) = S (dimNumber g)
  /\ length (partialMasses g) = S (dimNumber g)
  /\ length (partialExpProbs g) = S (dimNumber g)
  /\ length (counter g) = dimNumber g.

(** What [recalc] computes for cell 0 when it starts from the value [top]
    of cell [k]: the entries of the slots [k-1], [k-2], ..., 0 under the
    current counters, added (multiplied) to [top] one after the other, in
    that order. *)
Fixpoint lprob_down (g : IsoThresholdGenerator) (k : nat) (top : dbl) : dbl :=
  match k with
  | O => top
  | S k' => lprob_down g k' (dadd top (get_lProb (marginal g k') (cnt g k')))
  end.

Fixpoint mass_down (g : IsoThresholdGenerator) (k : nat) (top : Q) : Q :=
  match k with
  | O => top
  | S k' => mass_down g k' (top + get_mass (marginal g k') (cnt g k'))
  end.

Fixpoint eprob_down (g : IsoThresholdGenerator) (k : nat) (top : Q) : Q :=
  match k with
  | O => top
  | S k' => eprob_down g k' (top * get_eProb (marginal g k') (cnt g k'))
  end.


(** The cursor into the log-probabilities of marginal 0 stands one entry
    after the one [counter[0]] names. *)
Definition aligned (f : IsoThresholdGeneratorFast) : Prop :=
  lProbs_ptr f = S (cnt (base f) 0).

(** [c'] is one odometer step after [c]: slot [idx] went up by one, the
    slots below it stand at 0, the slots above it are as they were. *)
Definition odometer_step (idx : nat) (c c' : list nat) : Prop :=
  length c' = length c
  /\ (idx < length c)%nat
  /\ nth idx c' 0%nat = S (nth idx c 0%nat)
  /\ (forall j, (j < idx)%nat -> nth j c' 0%nat = 0%nat)
  /\ (forall j, (idx < j)%nat -> nth j c' 0%nat = nth j c 0%nat).

(** [c] comes before [c'] when the vectors are compared from the last slot
    down. *)
Definition colex_lt (c c' : list nat) : Prop :=
  length c' = length c
  /\ exists idx, (nth idx c 0 < nth idx c' 0)%nat
       /\ forall j, (idx < j)%nat -> nth j c' 0%nat = nth j c 0%nat.

Module OrderedVocabulary.

Import Ordered.

(** The configuration the generator stands at: [topConf] with the entry at
    [ccount] lowered by one. *)
Definition current_conf (g : IsoOrderedGenerator) : list Z :=
  if (0 <=? ccount g)%Z then bump (Z.to_nat (ccount g)) (-1) (topConf g)
  else topConf g.

Fixpoint isotopes_from (g : IsoOrderedGenerator) (ii n : nat) : nat :=
  match n with
  | O => O
  | S n' => nth ii (isotopeNumbers g) 0%nat + isotopes_from g (S ii) n'
  end.

Definition current_signature (g : IsoOrderedGenerator) (ii n : nat) : list Z :=
  concat (map (fun ii => confs_at g ii (nth ii (current_conf g) 0%Z)) (seq ii n)).

End OrderedVocabulary.

(* ================================================================== *)
(** * Properties *)
(* ================================================================== *)

(** ** [unnormalized_logProb] *)

Section MiscFacts.

Import Misc.

Variable rnd : rounding -> Q -> Q.
Variable minuslogFactorial : rounding -> Z -> Q.

Local Notation tz := (pass_towardzero rnd minuslogFactorial).
Local Notation up := (pass_upward rnd).
Local Notation neg := (exact_neg minuslogFactorial).
Local Notation terms := (exact_terms minuslogFactorial).

Lemma exact_terms_split conf logProbs n : forall from,
  terms conf logProbs from n == neg conf from n + exact_pos conf logProbs from n.
Proof.
  induction n as [|n IH]; intros from; simpl.
  - lra.
  - rewrite IH. lra.
Qed.

(** The loops of the code are the two passes. *)
Lemma first_loop_run conf n : forall from res,
  for_loop from n (fun i res =>
      do t <- call_minuslogFactorial minuslogFactorial (conf_at conf i) ;
      fadd rnd res t) res
    FE_TOWARDZERO
  = (tz conf from n res, FE_TOWARDZERO).
Proof.
  induction n as [|n IH]; intros from res; try reflexivity.
  simpl. unfold bind at 1. simpl. apply IH.
Qed.

Lemma second_loop_run conf logProbs n : forall from res,
  for_loop from n (fun i res =>
      do t <- fmul rnd (inject_Z (conf_at conf i)) (logProb_at logProbs i) ;
      fadd rnd res t) res
    FE_UPWARD
  = (up conf logProbs from n res, FE_UPWARD).
Proof.
  induction n as [|n IH]; intros from res; try reflexivity.
  simpl. unfold bind at 1. simpl. apply IH.
Qed.

Lemma unnormalized_logProb_run conf logProbs dim m :
  unnormalized_logProb rnd minuslogFactorial conf logProbs dim m
  = (up conf logProbs 0 dim (tz conf 0 dim 0), m).
Proof.
  unfold unnormalized_logProb.
  unfold bind at 1. unfold fegetround.
  unfold bind at 1. unfold fesetround at 1.
  unfold bind at 1. rewrite first_loop_run.
  unfold bind at 1. unfold fesetround at 1.
  unfold bind at 1. rewrite second_loop_run.
  reflexivity.
Qed.

(** C10.  The value [unnormalized_logProb] returns does not depend on the
    rounding direction in force at the call: for the same configuration,
    table and dimension, calls entered under any two directions return the
    same double, every operation of the function being carried out under a
    direction the function has set itself. *)
Theorem unnormalized_logProb_ambient_independent conf logProbs dim m1 m2 :
  fst (unnormalized_logProb rnd minuslogFactorial conf logProbs dim m1)
  = fst (unnormalized_logProb rnd minuslogFactorial conf logProbs dim m2).
Proof. rewrite !unnormalized_logProb_run. reflexivity. Qed.

Section Bias.

Hypothesis rnd_upward : forall q, q <= rnd FE_UPWARD q.
Hypothesis rnd_towardzero : forall q, q <= 0 ->
  q <= rnd FE_TOWARDZERO q /\ rnd FE_TOWARDZERO q <= 0.
Hypothesis minuslogFactorial_nonpos : forall m n, minuslogFactorial m n <= 0.

Lemma pass_towardzero_bias conf n : forall from res,
  res <= 0 ->
  res + neg conf from n <= tz conf from n res /\ tz conf from n res <= 0.
Proof.
  induction n as [|n IH]; intros from res Hres; simpl.
  - split; lra.
  - pose proof (minuslogFactorial_nonpos FE_TOWARDZERO (conf_at conf from)) as Hm.
    destruct (rnd_towardzero
                (res + minuslogFactorial FE_TOWARDZERO (conf_at conf from)))
      as [Hlo Hhi]; [lra|].
    destruct (IH (S from) _ Hhi) as [IH1 IH2].
    split; lra.
Qed.

Lemma pass_upward_bias conf logProbs n : forall from res,
  res + exact_pos conf logProbs from n <= up conf logProbs from n res.
Proof.
  induction n as [|n IH]; intros from res; simpl.
  - lra.
  - set (p := inject_Z (conf_at conf from) * logProb_at logProbs from).
    pose proof (rnd_upward p) as H1.
    pose proof (rnd_upward (res + rnd FE_UPWARD p)) as H2.
    pose proof (IH (S from) (rnd FE_UPWARD (res + rnd FE_UPWARD p))) as H3.
    lra.
Qed.

(** C5.  Entered under any rounding direction [m], [unnormalized_logProb]
    accumulates the [-log c_i!] terms with every sum rounded toward zero,
    then accumulates the [c_i * log p_i] terms with every product and sum
    rounded upward, and leaves the direction [m] in force on return; when
    upward rounding never decreases a value, rounding toward zero moves a
    non-positive value toward zero and [minuslogFactorial] is non-positive,
    the result is at least the sum of the terms without rounding. *)
Theorem unnormalized_logProb_two_passes conf logProbs dim m :
  unnormalized_logProb rnd minuslogFactorial conf logProbs dim m
  = (up conf logProbs 0 dim (tz conf 0 dim 0), m)
  /\ terms conf logProbs 0 dim
     <= fst (unnormalized_logProb rnd minuslogFactorial conf logProbs dim m).
Proof.
  split; [apply unnormalized_logProb_run|].
  rewrite unnormalized_logProb_run. cbn [fst].
  rewrite exact_terms_split.
  destruct (pass_towardzero_bias conf dim 0%nat 0) as [H1 _]; [lra|].
  pose proof (pass_upward_bias conf logProbs dim 0%nat (tz conf 0 dim 0)) as H2.
  lra.
Qed.

End Bias.

End MiscFacts.

(** The grid arithmetic rounds as the hypotheses of C5 ask. *)
Lemma Qmake_scale (z : Z) (p : positive) : z # p == inject_Z z * (1 # p).
Proof. unfold Qeq, Qmult, inject_Z. simpl. lia. Qed.

Lemma grid_scale (q : Q) : q == (q * inject_Z grid) * (1 # 1048576).
Proof. unfold grid. field. Qed.

Lemma grid_rnd_upward q : q <= grid_rnd FE_UPWARD q.
Proof.
  unfold grid_rnd. rewrite Qmake_scale.
  rewrite (grid_scale q) at 1.
  apply Qmult_le_compat_r; [apply Qle_ceiling | discriminate].
Qed.

Lemma grid_rnd_towardzero q :
  q <= 0 -> q <= grid_rnd FE_TOWARDZERO q /\ grid_rnd FE_TOWARDZERO q <= 0.
Proof.
  intros Hq. unfold grid_rnd.
  assert (Hx : q * inject_Z grid <= 0) by (unfold grid, inject_Z; lra).
  destruct (Qle_bool 0 (q * inject_Z grid)) eqn:E.
  - apply Qle_bool_iff in E.
    assert (Hz : q * inject_Z grid == 0) by (apply Qle_antisym; assumption).
    rewrite Hz. change (Qfloor 0) with 0%Z.
    split; [|discriminate].
    rewrite (grid_scale q), Hz. discriminate.
  - rewrite Qmake_scale. split.
    + rewrite (grid_scale q) at 1.
      apply Qmult_le_compat_r; [apply Qle_ceiling | discriminate].
    + assert (Hc : inject_Z (Qceiling (q * inject_Z grid)) <= 0).
      { change 0 with (inject_Z 0). rewrite <- Zle_Qle.
        change 0%Z with (Qceiling 0). apply Qceiling_resp_le. exact Hx. }
      lra.
Qed.

Lemma table_minuslogFactorial_nonpos m n : table_minuslogFactorial m n <= 0.
Proof.
  assert (Hrest : forall p, (if (Z.pos p <? 2)%Z then 0
                             else - inject_Z (2 * Z.pos p)) <= 0).
  { intros p. destruct (Z.pos p <? 2)%Z; [discriminate|].
    unfold Qle, Qopp, inject_Z. cbn [Qnum Qden]. lia. }
  unfold table_minuslogFactorial.
  destruct n as [|p|p]; try discriminate.
  repeat match goal with
         | |- context [match ?x with xI _ => _ | xO _ => _ | xH => _ end] =>
             destruct x
         end;
    first [apply Hrest | discriminate].
Qed.

Lemma unnormalized_logProb_two_passes_witness :
  Misc.unnormalized_logProb grid_rnd table_minuslogFactorial
    [3; 1]%Z [- (10847 # 1000000); - (4529320 # 1000000)] 2 FE_TONEAREST
  = (Misc.pass_upward grid_rnd [3; 1]%Z
       [- (10847 # 1000000); - (4529320 # 1000000)] 0 2
       (Misc.pass_towardzero grid_rnd table_minuslogFactorial [3; 1]%Z 0 2 0),
     FE_TONEAREST)
  /\ Misc.exact_terms table_minuslogFactorial [3; 1]%Z
       [- (10847 # 1000000); - (4529320 # 1000000)] 0 2
     <= fst (Misc.unnormalized_logProb grid_rnd table_minuslogFactorial
               [3; 1]%Z [- (10847 # 1000000); - (4529320 # 1000000)] 2
               FE_TONEAREST).
Proof.
  apply (unnormalized_logProb_two_passes grid_rnd table_minuslogFactorial
           grid_rnd_upward grid_rnd_towardzero table_minuslogFactorial_nonpos).
Defined.

(** ** Array cells of the generator *)

Lemma nth_insert_eq {A} (l : list A) i v d :
  (i < length l)%nat -> nth i (<[i:=v]> l) d = v.
Proof.
  intros H. rewrite nth_lookup, list_lookup_insert_eq by exact H. reflexivity.
Qed.

Lemma nth_insert_ne {A} (l : list A) i j v d :
  i <> j -> nth j (<[i:=v]> l) d = nth j l d.
Proof.
  intros H. rewrite !nth_lookup, list_lookup_insert_ne by exact H. reflexivity.
Qed.

Lemma pL_set_pL_eq g i v :
  (i < length (partialLProbs g))%nat -> pL (set_pL i v g) i = v.
Proof. intros H. unfold pL, set_pL. simpl. apply nth_insert_eq, H. Qed.

Lemma pL_set_pL_ne g i j v : i <> j -> pL (set_pL i v g) j = pL g j.
Proof. intros H. unfold pL, set_pL. simpl. apply nth_insert_ne, H. Qed.


Lemma cnt_set_cnt_ne g i j v : i <> j -> cnt (set_cnt i v g) j = cnt g j.
Proof. intros H. unfold cnt, set_cnt. simpl. apply nth_insert_ne, H. Qed.

Lemma frame_refl g : frame g g.
Proof. unfold frame. tauto. Qed.

Lemma frame_trans g1 g2 g3 : frame g1 g2 -> frame g2 g3 -> frame g1 g3.
Proof. unfold frame. intuition congruence. Qed.

Lemma frame_set_pL i v g : frame g (set_pL i v g).
Proof. unfold frame, set_pL. simpl. rewrite length_insert. tauto. Qed.

Lemma frame_set_pM i v g : frame g (set_pM i v g).
Proof. unfold frame, set_pM. simpl. tauto. Qed.

Lemma frame_set_pE i v g : frame g (set_pE i v g).
Proof. unfold frame, set_pE. simpl. tauto. Qed.

Lemma frame_set_cnt i v g : frame g (set_cnt i v g).
Proof. unfold frame, set_cnt. simpl. tauto. Qed.

Lemma frame_terminate_search g : frame g (terminate_search g).
Proof. unfold frame, terminate_search. simpl. tauto. Qed.

Lemma frame_recalc_step idx g : frame g (recalc_step idx g).
Proof.
  unfold recalc_step.
  eapply frame_trans; [|apply frame_set_pE].
  eapply frame_trans; [|apply frame_set_pM].
  apply frame_set_pL.
Qed.

Lemma frame_recalc idx : forall g, frame g (recalc idx g).
Proof.
  induction idx as [|idx IH]; intros g; simpl.
  - apply frame_recalc_step.
  - eapply frame_trans; [apply frame_recalc_step | apply IH].
Qed.

Lemma frame_marginal g g' ii : frame g g' -> marginal g' ii = marginal g ii.
Proof. intros (_ & H & _). unfold marginal. rewrite H. reflexivity. Qed.

Lemma frame_maxLP g g' i : frame g g' -> maxLP g' i = maxLP g i.
Proof. intros (_ & _ & _ & H & _). unfold maxLP. rewrite H. reflexivity. Qed.

(** The counters are written by [set_cnt] and [terminate_search] only. *)
Lemma counter_recalc_step idx g : counter (recalc_step idx g) = counter g.
Proof. reflexivity. Qed.

Lemma counter_recalc idx : forall g, counter (recalc idx g) = counter g.
Proof.
  induction idx as [|idx IH]; intros g; simpl; [reflexivity|].
  rewrite IH. reflexivity.
Qed.

Lemma pL_recalc_step_eq idx g :
  (idx < length (partialLProbs g))%nat ->
  pL (recalc_step idx g) idx
  = dadd (pL g (S idx)) (get_lProb (marginal g idx) (cnt g idx)).
Proof.
  intros H. unfold recalc_step.
  change (pL (set_pE ?i ?v ?h) ?j) with (pL h j).
  change (pL (set_pM ?i ?v ?h) ?j) with (pL h j).
  apply pL_set_pL_eq, H.
Qed.

Lemma pL_recalc_step_ne idx j g : idx <> j -> pL (recalc_step idx g) j = pL g j.
Proof.
  intros H. unfold recalc_step.
  change (pL (set_pE ?i ?v ?h) ?j) with (pL h j).
  change (pL (set_pM ?i ?v ?h) ?j) with (pL h j).
  apply pL_set_pL_ne, H.
Qed.

(** ** What a call leaves as it was *)

Lemma length_counter_set_cnt i v g :
  length (counter (set_cnt i v g)) = length (counter g).
Proof. unfold set_cnt. simpl. apply length_insert. Qed.

Lemma Fast_carry_frame n : forall idx g, frame g (snd (Fast.carry n idx g)).
Proof.
  induction n as [|n IH]; intros idx g; cbn [Fast.carry].
  - apply frame_terminate_search.
  - set (g3 := set_pL _ _ (set_cnt _ _ (set_cnt idx 0 g))).
    assert (F3 : frame g g3).
    { eapply frame_trans; [apply frame_set_cnt|].
      eapply frame_trans; [apply frame_set_cnt|]. apply frame_set_pL. }
    destruct (dge _ _).
    + cbn [snd]. eapply frame_trans; [exact F3|].
      eapply frame_trans; [apply frame_set_pM|].
      eapply frame_trans; [apply frame_set_pE|]. apply frame_recalc.
    + eapply frame_trans; [exact F3 | apply IH].
Qed.

Lemma Fast_advance_frame f :
  frame (base f) (base (snd (Fast.advanceToNextConfiguration f))).
Proof.
  unfold Fast.advanceToNextConfiguration.
  set (g2 := set_pL 0 _ (set_cnt 0 _ (base f))).
  assert (F2 : frame (base f) g2).
  { eapply frame_trans; [apply frame_set_cnt | apply frame_set_pL]. }
  destruct (dge _ _).
  - cbn [snd base]. eapply frame_trans; [exact F2|].
    eapply frame_trans; [apply frame_set_pM | apply frame_set_pE].
  - pose proof (Fast_carry_frame (dimNumber g2 - 1) 0 g2) as Fc.
    destruct (Fast.carry _ _ _) as [r g']. cbn [snd base] in *.
    eapply frame_trans; eassumption.
Qed.

(** *** The constructor *)

Section ConstructionFacts.

Variable flog : Q -> dbl.

Lemma ctor_frame iso threshold absolute :
  Lcutoff (IsoThresholdGenerator_ctor flog iso threshold absolute)
  = threshold_Lcutoff flog iso threshold absolute.
Proof.
  unfold IsoThresholdGenerator_ctor.
  destruct (iso_dimNumber iso) as [|d]; [reflexivity|].
  match goal with
  | |- Lcutoff (recalc d ?g) = _ =>
      destruct (frame_recalc d g) as (_ & _ & -> & _)
  end.
  reflexivity.
Qed.

End ConstructionFacts.

(** ** The cutoff *)

(** C6.  The constructor sets [Lcutoff] to [log threshold] when [absolute]
    is true, and to [log threshold] plus the log-probability of the joint
    mode when [absolute] is false. *)
Theorem cutoff_of_threshold (flog : Q -> dbl) iso threshold :
  Lcutoff (IsoThresholdGenerator_ctor flog iso threshold true) = flog threshold
  /\ Lcutoff (IsoThresholdGenerator_ctor flog iso threshold false)
     = dadd (flog threshold) (Fin (modeLProb iso)).
Proof. rewrite !ctor_frame. split; reflexivity. Qed.

(** ** The count-only walk against the fast walk *)

Ltac lsim_fields H :=
  let H1 := fresh "Hd" in let H2 := fresh "Hm" in let H3 := fresh "Hc" in
  let H4 := fresh "Hs" in let H5 := fresh "Hn" in let H6 := fresh "Hp" in
  destruct H as (H1 & H2 & H3 & H4 & H5 & H6).

Lemma lsim_refl g : lsim g g.
Proof. unfold lsim. tauto. Qed.

Lemma lsim_pL g h i : lsim g h -> pL g i = pL h i.
Proof. intros H. lsim_fields H. unfold pL. congruence. Qed.

Lemma lsim_cnt g h i : lsim g h -> cnt g i = cnt h i.
Proof. intros H. lsim_fields H. unfold cnt. congruence. Qed.

Lemma lsim_marginal g h i : lsim g h -> marginal g i = marginal h i.
Proof. intros H. lsim_fields H. unfold marginal. congruence. Qed.

Lemma lsim_maxLP g h i : lsim g h -> maxLP g i = maxLP h i.
Proof. intros H. lsim_fields H. unfold maxLP. congruence. Qed.

Lemma lsim_set_pL g h i v : lsim g h -> lsim (set_pL i v g) (set_pL i v h).
Proof. intros H. lsim_fields H. unfold lsim, set_pL. simpl. intuition congruence. Qed.

Lemma lsim_set_cnt g h i v : lsim g h -> lsim (set_cnt i v g) (set_cnt i v h).
Proof. intros H. lsim_fields H. unfold lsim, set_cnt. simpl. intuition congruence. Qed.

Lemma lsim_set_pM g h i v : lsim g h -> lsim (set_pM i v g) h.
Proof. intros H. lsim_fields H. unfold lsim, set_pM. simpl. tauto. Qed.

Lemma lsim_set_pE g h i v : lsim g h -> lsim (set_pE i v g) h.
Proof. intros H. lsim_fields H. unfold lsim, set_pE. simpl. tauto. Qed.

Lemma lsim_terminate_search g h :
  lsim g h -> lsim (terminate_search g) (terminate_search h).
Proof.
  intros H. lsim_fields H. unfold lsim, terminate_search. simpl.
  intuition congruence.
Qed.

Lemma lsim_recalc_step g h idx :
  lsim g h -> lsim (recalc_step idx g) (Cntr.recalc_step idx h).
Proof.
  intros H. unfold recalc_step, Cntr.recalc_step.
  apply lsim_set_pE, lsim_set_pM.
  rewrite (lsim_pL _ _ _ H), (lsim_marginal _ _ _ H), (lsim_cnt _ _ _ H).
  apply lsim_set_pL, H.
Qed.

Lemma lsim_recalc idx : forall g h,
  lsim g h -> lsim (recalc idx g) (Cntr.recalc idx h).
Proof.
  induction idx as [|idx IH]; intros g h H; simpl.
  - apply lsim_recalc_step, H.
  - apply IH, lsim_recalc_step, H.
Qed.

Lemma lsim_carry n : forall idx g h,
  lsim g h ->
  fst (Fast.carry n idx g) = fst (Cntr.carry n idx h)
  /\ lsim (snd (Fast.carry n idx g)) (snd (Cntr.carry n idx h)).
Proof.
  induction n as [|n IH]; intros idx g h H; cbn [Fast.carry Cntr.carry].
  - split; [reflexivity | apply lsim_terminate_search, H].
  - set (g1 := set_cnt idx 0 g). set (h1 := set_cnt idx 0 h).
    assert (H1 : lsim g1 h1) by (apply lsim_set_cnt, H).
    set (g2 := set_cnt (S idx) (S (cnt g1 (S idx))) g1).
    set (h2 := set_cnt (S idx) (S (cnt h1 (S idx))) h1).
    assert (H2 : lsim g2 h2).
    { unfold g2, h2. rewrite (lsim_cnt _ _ (S idx) H1). apply lsim_set_cnt, H1. }
    set (g3 := set_pL (S idx)
                 (dadd (pL g2 (S (S idx)))
                       (get_lProb (marginal g2 (S idx)) (cnt g2 (S idx)))) g2).
    set (h3 := set_pL (S idx)
                 (dadd (pL h2 (S (S idx)))
                       (get_lProb (marginal h2 (S idx)) (cnt h2 (S idx)))) h2).
    assert (H3 : lsim g3 h3).
    { unfold g3, h3.
      rewrite (lsim_pL _ _ (S (S idx)) H2), (lsim_marginal _ _ (S idx) H2),
        (lsim_cnt _ _ (S idx) H2).
      apply lsim_set_pL, H2. }
    rewrite (lsim_pL _ _ (S idx) H3), (lsim_maxLP _ _ (S idx - 1) H3).
    pose proof H3 as (_ & _ & Hc & _). rewrite Hc.
    destruct (dge _ _).
    + split; [reflexivity|]. cbn [snd].
      apply lsim_recalc, lsim_set_pE, lsim_set_pM, H3.
    + apply IH, H3.
Qed.

Lemma fsim_advance f c :
  fsim f c ->
  fst (Fast.advanceToNextConfiguration f) = fst (Cntr.advanceToNextConfiguration c)
  /\ fsim (snd (Fast.advanceToNextConfiguration f))
          (snd (Cntr.advanceToNextConfiguration c)).
Proof.
  intros [H Hptr].
  unfold Fast.advanceToNextConfiguration, Cntr.advanceToNextConfiguration.
  rewrite (lsim_cnt _ _ 0%nat H), Hptr.
  pose proof (lsim_set_cnt _ _ 0%nat (S (cnt (base c) 0)) H) as H1.
  rewrite (lsim_pL _ _ 1%nat H1), (lsim_marginal _ _ 0%nat H1).
  set (c1 := set_cnt 0 (S (cnt (base c) 0)) (base c)) in *.
  pose proof (lsim_set_pL _ _ 0%nat
                (dadd (pL c1 1) (get_lProb (marginal c1 0) (lProbs_ptr c))) H1) as H2.
  rewrite (lsim_pL _ _ 0%nat H2).
  pose proof H2 as (Hd & _ & Hc & _). rewrite Hc, Hd.
  destruct (dge _ _).
  - split; [reflexivity|]. cbn [snd]. split; [|reflexivity]. cbn [base].
    apply lsim_set_pE, lsim_set_pM, H2.
  - pose proof (lsim_carry (dimNumber (set_pL 0
                   (dadd (pL c1 1) (get_lProb (marginal c1 0) (lProbs_ptr c)))
                   c1) - 1) 0 _ _ H2) as [R S].
    destruct (Fast.carry _ _ _) as [r g'], (Cntr.carry _ _ _) as [r' h'].
    cbn [fst snd] in *. split; [exact R|]. split; [exact S | reflexivity].
Qed.

Lemma fsim_after n : forall f c,
  fsim f c ->
  fst (after Fast.advanceToNextConfiguration n f)
  = fst (after Cntr.advanceToNextConfiguration n c)
  /\ fsim (snd (after Fast.advanceToNextConfiguration n f))
          (snd (after Cntr.advanceToNextConfiguration n c)).
Proof.
  induction n as [|n IH]; intros f c H.
  - split; [reflexivity | exact H].
  - cbn [after]. apply fsim_advance, IH, H.
Qed.


(** ** The fast walk against the base walk *)

(** On its hot path the fast walk takes the log-probability from the entry
    of marginal 0 under [lProbs_ptr] before the cursors move, and the mass
    and the probability from the entries under [mass_ptr] and [exp_ptr]
    after they have moved. *)
Lemma Fast_hot_path f :
  (0 < length (partialLProbs (base f)))%nat ->
  (0 < length (partialMasses (base f)))%nat ->
  (0 < length (partialExpProbs (base f)))%nat ->
  dge (dadd (pL (base f) 1) (get_lProb (marginal (base f) 0) (lProbs_ptr f)))
      (Lcutoff (base f)) = true ->
  let '(r, f') := Fast.advanceToNextConfiguration f in
  r = true
  /\ lprob (base f')
     = dadd (pL (base f) 1) (get_lProb (marginal (base f) 0) (lProbs_ptr f))
  /\ mass (base f')
     = pM (base f) 1 + get_mass (marginal (base f) 0) (S (mass_ptr f))
  /\ eprob (base f')
     = pE (base f) 1 * get_eProb (marginal (base f) 0) (S (exp_ptr f)).
Proof.
  intros HL HM HE Hge. unfold Fast.advanceToNextConfiguration.
  set (g1 := set_cnt 0 (S (cnt (base f) 0)) (base f)).
  change (pL g1 1) with (pL (base f) 1).
  change (marginal g1 0) with (marginal (base f) 0).
  set (v := dadd (pL (base f) 1) (get_lProb (marginal (base f) 0) (lProbs_ptr f))) in *.
  assert (E : pL (set_pL 0 v g1) 0 = v) by (apply pL_set_pL_eq; exact HL).
  rewrite E. change (Lcutoff (set_pL 0 v g1)) with (Lcutoff (base f)).
  rewrite Hge. cbn [base].
  split; [reflexivity|]. split; [|split].
  - exact E.
  - unfold mass, pM, set_pE, set_pM. simpl. apply nth_insert_eq. exact HM.
  - unfold eprob, pE, set_pE, set_pM. simpl. apply nth_insert_eq. exact HE.
Qed.

(** C1.  On the molecule C2H with the absolute threshold 1e-9 the fast
    generator is not the base generator.  After the first call both stand at
    counter (1,0), the base with the log-probability of that configuration,
    the fast one with the log-probability of the mode.  The base walk
    answers true five times, the fast walk six times.  Where both stand at
    counter (1,1) with the same log-probability, after an accepted carry,
    the base reports the mass and probability of configuration (1,1) and the
    fast generator those of (2,1): its log-probability is built from entry 1
    of marginal 0, its mass and probability from entry 2. *)
Theorem fast_is_not_base_on_C2H :
  let B := IsoThresholdGenerator_ctor log6 iso_C2H (1 # 1000000000) true in
  let F := IsoThresholdGeneratorFast_ctor log6 iso_C2H (1 # 1000000000) true in
  let b n := snd (after Base.advanceToNextConfiguration n B) in
  let f n := base (snd (after Fast.advanceToNextConfiguration n F)) in
  (fst (Base.advanceToNextConfiguration B) = true
   /\ fst (Fast.advanceToNextConfiguration F) = true
   /\ counter (b 1%nat) = [1; 0]%nat /\ counter (f 1%nat) = [1; 0]%nat
   /\ deq (lprob (b 1%nat)) (Fin (- (3847135 # 1000000)))
   /\ deq (lprob (f 1%nat)) (Fin (- (21808 # 1000000))))
  /\ (map (fun n => fst (after Base.advanceToNextConfiguration n B)) (seq 1 7)
      = [true; true; true; true; true; false; false]
      /\ map (fun n => fst (after Fast.advanceToNextConfiguration n F)) (seq 1 7)
         = [true; true; true; true; true; true; false])
  /\ (counter (b 4%nat) = [1; 1]%nat /\ counter (f 5%nat) = [1; 1]%nat
      /\ deq (lprob (b 4%nat)) (lprob (f 5%nat))
      /\ mass (b 4%nat) == 27017457 # 1000000
      /\ mass (f 5%nat) == 28020812 # 1000000
      /\ ~ eprob (b 4%nat) == eprob (f 5%nat)
      /\ deq (lprob (f 5%nat)) (dadd (get_lProb hydrogen1 1) (get_lProb carbon2 1))
      /\ mass (f 5%nat) == get_mass hydrogen1 1 + get_mass carbon2 2
      /\ eprob (f 5%nat) == get_eProb hydrogen1 1 * get_eProb carbon2 2).
Proof.
  vm_compute. repeat split; try reflexivity. intros H. discriminate H.
Qed.

(** ** The cutoff under rounding *)

(** With nothing rounded, the rounded walk is the walk of [Module Fast]. *)
Lemma Rounded_advance_exact f :
  Rounded.advanceToNextConfiguration (fun q => q) f
  = Fast.advanceToNextConfiguration f.
Proof. reflexivity. Qed.


(** ** The set of emitted configurations *)


(** ** The three walks emit equally many configurations *)


Lemma lsim_sym g h : lsim g h -> lsim h g.
Proof. intros H. lsim_fields H. unfold lsim. intuition congruence. Qed.








(** ** The configuration signature of the threshold generators *)

Lemma memcpy_spec k : forall space off src,
  (k <= length src)%nat ->
  (off + k <= length space)%nat ->
  memcpy space off src k = take off space ++ take k src ++ drop (off + k) space.
Proof.
  induction k as [|k IH]; intros space off src Hs Hl.
  - simpl. rewrite Nat.add_0_r, take_drop. reflexivity.
  - destruct src as [|x src]; [simpl in Hs; lia|].
    cbn [memcpy nth tl]. simpl in Hs.
    rewrite IH by (rewrite ?length_insert; lia).
    rewrite (take_S_r _ off x)
      by (apply list_lookup_insert_eq; lia).
    rewrite take_insert_ge by lia.
    rewrite drop_insert_lt by lia.
    rewrite <- app_assoc. simpl.
    replace (S (off + k))%nat with (off + S k)%nat by lia. reflexivity.
Qed.

Lemma length_memcpy k : forall space off src,
  length (memcpy space off src k) = length space.
Proof.
  induction k as [|k IH]; intros space off src; simpl; [reflexivity|].
  rewrite IH, length_insert. reflexivity.
Qed.

Lemma conf_signature_loop_spec g n : forall ii off space,
  (forall e, (ii <= e < ii + n)%nat ->
     length (get_conf (marginal g e) (cnt g e)) = nth e (isotopeNumbers g) 0%nat) ->
  (off + isotopes_from g ii n <= length space)%nat ->
  conf_signature_loop g ii n off space
  = take off space ++ current_confs g ii n
    ++ drop (off + isotopes_from g ii n) space.
Proof.
  induction n as [|n IH]; intros ii off space Hk Hl.
  - simpl. unfold current_confs. simpl. rewrite Nat.add_0_r, take_drop. reflexivity.
  - cbn [conf_signature_loop isotopes_from] in *.
    set (k := nth ii (isotopeNumbers g) 0%nat) in *.
    set (c := get_conf (marginal g ii) (cnt g ii)).
    assert (Hc : length c = k) by (apply Hk; lia).
    rewrite IH; [|intros e He; apply Hk; lia|rewrite length_memcpy; lia].
    rewrite memcpy_spec by lia.
    replace (take k c) with c by (rewrite <- Hc, firstn_all; reflexivity).
    unfold current_confs. cbn [seq map concat]. fold c.
    set (A := take off space). set (C := drop (off + k) space).
    assert (HA : length (A ++ c) = (off + k)%nat).
    { unfold A. rewrite length_app, length_take. lia. }
    rewrite (app_assoc A c C).
    rewrite (take_app_length' (A ++ c) C) by (symmetry; exact HA).
    replace (off + k + isotopes_from g (S ii) n)%nat
      with (length (A ++ c) + isotopes_from g (S ii) n)%nat by lia.
    rewrite drop_app_add. unfold C. rewrite drop_drop.
    rewrite <- !app_assoc.
    replace (off + k + isotopes_from g (S ii) n)%nat
      with (off + (k + isotopes_from g (S ii) n))%nat by lia.
    reflexivity.
Qed.

Lemma length_conf_signature_loop g n : forall ii off space,
  length (conf_signature_loop g ii n off space) = length space.
Proof.
  induction n as [|n IH]; intros ii off space; cbn [conf_signature_loop].
  - reflexivity.
  - rewrite IH. apply length_memcpy.
Qed.

(** C2, as the code has it.  In a state whose current configuration of every
    slot has as many entries as the slot has isotopes, the base generator's
    [get_conf_signature] overwrites the first [allDim] integers of the
    buffer, the sum of the isotope numbers, with the isotope counts of the
    current configurations of the slots 0 .. [dimNumber]-1 in this order and
    leaves the rest of the buffer alone; the overrides of the fast and of
    the count-only generator write nothing. *)
Theorem conf_signature_written g space :
  (forall ii, (ii < dimNumber g)%nat ->
     length (get_conf (marginal g ii) (cnt g ii)) = nth ii (isotopeNumbers g) 0%nat) ->
  (allDim g <= length space)%nat ->
  get_conf_signature g space
  = current_confs g 0 (dimNumber g) ++ drop (allDim g) space
  /\ length (current_confs g 0 (dimNumber g)) = allDim g
  /\ (forall f, Fast.get_conf_signature f space = space)
  /\ (forall f, Cntr.get_conf_signature f space = space).
Proof.
  intros Hk Hl.
  assert (E : get_conf_signature g space
              = current_confs g 0 (dimNumber g) ++ drop (allDim g) space).
  { unfold get_conf_signature.
    rewrite conf_signature_loop_spec; [reflexivity| |exact Hl].
    intros e He. apply Hk. lia. }
  split; [exact E|]. split; [|split; reflexivity].
  pose proof (length_conf_signature_loop g (dimNumber g) 0 0 space) as L.
  fold (get_conf_signature g space) in L.
  rewrite E, length_app, length_drop in L. lia.
Qed.

Lemma conf_signature_written_witness :
  let g := snd (Base.advanceToNextConfiguration
                  (IsoThresholdGenerator_ctor log6 iso_CH (1 # 1000000000) true)) in
  get_conf_signature g [7; 7; 7; 7; 9]%Z
  = current_confs g 0 (dimNumber g) ++ drop (allDim g) [7; 7; 7; 7; 9]%Z
  /\ length (current_confs g 0 (dimNumber g)) = allDim g
  /\ (forall f, Fast.get_conf_signature f [7; 7; 7; 7; 9]%Z = [7; 7; 7; 7; 9]%Z)
  /\ (forall f, Cntr.get_conf_signature f [7; 7; 7; 7; 9]%Z = [7; 7; 7; 7; 9]%Z).
Proof.
  cbv zeta. apply conf_signature_written.
  - intros ii Hii.
    destruct ii as [|[|ii]]; [reflexivity | reflexivity |].
    exfalso. vm_compute in Hii. lia.
  - vm_compute. lia.
Defined.

(** C2 as stated fails for the fast generator: after a successful advance on
    the molecule C the buffer handed to [get_conf_signature] comes back
    untouched, where the base generator's function writes the two isotope
    counts of the current configuration. *)
Lemma fast_signature_writes_nothing :
  let r := Fast.advanceToNextConfiguration
             (IsoThresholdGeneratorFast_ctor log6 iso_C (1 # 1000000000) true) in
  fst r = true
  /\ Fast.get_conf_signature (snd r) [7; 7]%Z = [7; 7]%Z
  /\ get_conf_signature (base (snd r)) [7; 7]%Z = [0; 1]%Z
  /\ Fast.get_conf_signature (snd r) [7; 7]%Z
     <> current_confs (base (snd r)) 0 (dimNumber (base (snd r)))
        ++ drop (allDim (base (snd r))) [7; 7]%Z.
Proof.
  vm_compute. repeat split; try reflexivity. intros H. discriminate H.
Qed.

(** ** The configuration signature of the ordered generator *)

Lemma memcpy_as_writes k : forall space off src,
  memcpy space off src k = apply_writes (memcpy_writes off src k) space.
Proof.
  induction k as [|k IH]; intros space off src; [reflexivity|].
  cbn [memcpy memcpy_writes]. rewrite IH. reflexivity.
Qed.

Lemma length_apply_writes W : forall l, length (apply_writes W l) = length l.
Proof.
  induction W as [|[p v] W IH]; intros l; [reflexivity|].
  unfold apply_writes in *. cbn [fold_left fst snd].
  rewrite IH, length_insert. reflexivity.
Qed.

Lemma lookup_apply_writes W : forall l q,
  apply_writes W l !! q
  = match last_write W q with
    | Some v => if (q <? length l)%nat then Some v else None
    | None => l !! q
    end.
Proof.
  induction W as [|[p v] W IH]; intros l q; [reflexivity|].
  unfold apply_writes in *. cbn [fold_left fst snd last_write].
  rewrite IH, length_insert.
  destruct (last_write W q) as [v'|]; [reflexivity|].
  destruct (Nat.eqb_spec p q) as [->|Hne].
  - destruct (Nat.ltb_spec q (length l)) as [Hlt|Hge].
    + apply list_lookup_insert_eq, Hlt.
    + rewrite list_insert_ge by lia. apply lookup_ge_None. lia.
  - apply list_lookup_insert_ne, Hne.
Qed.

(** Writing the same cells with the same values a second time changes
    nothing. *)
Lemma apply_writes_twice W l : apply_writes W (apply_writes W l) = apply_writes W l.
Proof.
  apply list_eq. intros q.
  rewrite (lookup_apply_writes W (apply_writes W l)), length_apply_writes.
  rewrite (lookup_apply_writes W l).
  destruct (last_write W q); reflexivity.
Qed.

Module OrderedFacts.

Import Ordered OrderedWrites.

Lemma signature_loop_as_writes g c n : forall ii off space,
  signature_loop g c ii n off space
  = apply_writes (signature_writes g c ii n off) space.
Proof.
  induction n as [|n IH]; intros ii off space; [reflexivity|].
  cbn [signature_loop signature_writes].
  rewrite IH, memcpy_as_writes. unfold apply_writes.
  rewrite fold_left_app. reflexivity.
Qed.

Lemma bump_back i c :
  (i < length c)%nat -> bump i 1 (bump i (-1) c) = c.
Proof.
  intros Hi. unfold bump.
  rewrite nth_insert_eq by exact Hi.
  rewrite list_insert_insert_eq.
  replace (nth i c 0 + -1 + 1)%Z with (nth i c 0%Z) by lia.
  destruct (lookup_lt_is_Some_2 c i Hi) as [x Hx].
  apply list_insert_id. rewrite nth_lookup, Hx. reflexivity.
Qed.

(** C9.  With [ccount] negative or an index into the configuration vector
    of [topConf], a call of [get_conf_signature] leaves the generator as it
    found it, the entry at [ccount] being decremented before the copy and
    incremented after it; a second call right after the first, on the
    untouched buffer or on the buffer the first call has filled, leaves the
    buffer with the contents the first call wrote. *)
Theorem get_conf_signature_pure g space :
  (ccount g < Z.of_nat (length (topConf g)))%Z ->
  let '(space1, g1) := get_conf_signature g space in
  g1 = g
  /\ fst (get_conf_signature g1 space) = space1
  /\ fst (get_conf_signature g1 space1) = space1.
Proof.
  intros Hc. unfold get_conf_signature.
  set (c := if (0 <=? ccount g)%Z
            then bump (Z.to_nat (ccount g)) (-1) (topConf g) else topConf g).
  assert (Hback : (if (0 <=? ccount g)%Z
                   then bump (Z.to_nat (ccount g)) 1 c else c) = topConf g).
  { unfold c. destruct (0 <=? ccount g)%Z eqn:E; [|reflexivity].
    apply bump_back. apply Z.leb_le in E. lia. }
  rewrite Hback.
  assert (Hg : set_topConf (topConf g) g = g) by (destruct g; reflexivity).
  rewrite Hg. fold c. rewrite Hback.
  split; [reflexivity|]. split; [reflexivity|].
  cbn [fst]. rewrite !signature_loop_as_writes. apply apply_writes_twice.
Qed.

Lemma get_conf_signature_pure_witness :
  let g := mkOrdered 2 [2; 2]%nat
             [[[1; 0]; [0; 1]]; [[1; 0]; [0; 1]]]%Z [0; 1]%Z 1 in
  (ccount g < Z.of_nat (length (topConf g)))%Z
  /\ get_conf_signature g [7; 7; 7; 7]%Z = ([1; 0; 1; 0]%Z, g)
  /\ fst (get_conf_signature g [7; 7; 7; 7]%Z) = [1; 0; 1; 0]%Z
  /\ fst (get_conf_signature g [1; 0; 1; 0]%Z) = [1; 0; 1; 0]%Z.
Proof.
  cbv zeta.
  pose proof (get_conf_signature_pure
                (mkOrdered 2 [2; 2]%nat
                   [[[1; 0]; [0; 1]]; [[1; 0]; [0; 1]]]%Z [0; 1]%Z 1)
                [7; 7; 7; 7]%Z eq_refl) as H.
  split; [reflexivity|].
  split; [reflexivity|].
  exact (proj2 H).
Defined.

End OrderedFacts.

(* ================================================================== *)
(** * Further properties of the code *)
(* ================================================================== *)

(** ** [recalc] *)

Lemma recalc_step_cells idx g :
  (idx < length (partialLProbs g))%nat ->
  (idx < length (partialMasses g))%nat ->
  (idx < length (partialExpProbs g))%nat ->
  pL (recalc_step idx g) idx
  = dadd (pL g (S idx)) (get_lProb (marginal g idx) (cnt g idx))
  /\ pM (recalc_step idx g) idx
     = pM g (S idx) + get_mass (marginal g idx) (cnt g idx)
  /\ pE (recalc_step idx g) idx
     = pE g (S idx) * get_eProb (marginal g idx) (cnt g idx).
Proof.
  intros HL HM HE. split; [apply pL_recalc_step_eq, HL|].
  unfold recalc_step, pM, pE, set_pE, set_pM, set_pL. simpl.
  split; apply nth_insert_eq; assumption.
Qed.

Lemma recalc_step_other idx j g :
  idx <> j ->
  pL (recalc_step idx g) j = pL g j
  /\ pM (recalc_step idx g) j = pM g j
  /\ pE (recalc_step idx g) j = pE g j.
Proof.
  intros H. split; [apply pL_recalc_step_ne, H|].
  unfold recalc_step, pM, pE, set_pE, set_pM, set_pL. simpl.
  split; apply nth_insert_ne; assumption.
Qed.

Lemma recalc_step_lengths idx g :
  length (partialLProbs (recalc_step idx g)) = length (partialLProbs g)
  /\ length (partialMasses (recalc_step idx g)) = length (partialMasses g)
  /\ length (partialExpProbs (recalc_step idx g)) = length (partialExpProbs g).
Proof.
  unfold recalc_step, set_pE, set_pM, set_pL. simpl.
  rewrite !length_insert. tauto.
Qed.

Lemma recalc_lengths idx : forall g,
  length (partialLProbs (recalc idx g)) = length (partialLProbs g)
  /\ length (partialMasses (recalc idx g)) = length (partialMasses g)
  /\ length (partialExpProbs (recalc idx g)) = length (partialExpProbs g).
Proof.
  induction idx as [|idx IH]; intros g; cbn [recalc].
  - apply recalc_step_lengths.
  - destruct (IH (recalc_step (S idx) g)) as (-> & -> & ->).
    apply recalc_step_lengths.
Qed.

Lemma recalc_above k : forall g j,
  (k < j)%nat ->
  pL (recalc k g) j = pL g j /\ pM (recalc k g) j = pM g j
  /\ pE (recalc k g) j = pE g j.
Proof.
  induction k as [|k IH]; intros g j Hj; cbn [recalc].
  - apply recalc_step_other. lia.
  - destruct (IH (recalc_step (S k) g) j) as (-> & -> & ->); [lia|].
    apply recalc_step_other. lia.
Qed.

Lemma recalc_cells k : forall g j,
  (k < length (partialLProbs g))%nat ->
  (k < length (partialMasses g))%nat ->
  (k < length (partialExpProbs g))%nat ->
  (j <= k)%nat ->
  cell_ok (recalc k g) j.
Proof.
  induction k as [|k IH]; intros g j HL HM HE Hj; cbn [recalc].
  - assert (j = 0%nat) as -> by lia.
    unfold cell_ok, lp_cell.
    destruct (recalc_step_cells 0 g HL HM HE) as (-> & -> & ->).
    destruct (recalc_step_other 0 1 g) as (-> & -> & ->); [lia|].
    change (marginal (recalc_step 0 g)) with (marginal g).
    change (cnt (recalc_step 0 g)) with (cnt g). tauto.
  - destruct (recalc_step_lengths (S k) g) as (L1 & L2 & L3).
    destruct (Nat.eq_dec j (S k)) as [->|Hne].
    + unfold cell_ok, lp_cell.
      destruct (recalc_above k (recalc_step (S k) g) (S k)) as (-> & -> & ->); [lia|].
      destruct (recalc_above k (recalc_step (S k) g) (S (S k))) as (-> & -> & ->); [lia|].
      destruct (recalc_step_cells (S k) g HL HM HE) as (-> & -> & ->).
      destruct (recalc_step_other (S k) (S (S k)) g) as (-> & -> & ->); [lia|].
      unfold marginal, cnt. destruct (frame_recalc k (recalc_step (S k) g)) as (_ & -> & _).
      rewrite counter_recalc. tauto.
    + apply IH; lia.
Qed.

(** X1.  After [recalc(idx)] every cell [j <= idx] of [partialLProbs],
    [partialMasses] and [partialExpProbs] is cell [j+1] combined with the
    entry of marginal [j] under [counter[j]]; the cells above [idx], the
    counters and the marginals are as before. *)
Theorem recalc_recurrence idx g :
  (idx < length (partialLProbs g))%nat ->
  (idx < length (partialMasses g))%nat ->
  (idx < length (partialExpProbs g))%nat ->
  (forall j, (j <= idx)%nat -> cell_ok (recalc idx g) j)
  /\ (forall j, (idx < j)%nat ->
        pL (recalc idx g) j = pL g j /\ pM (recalc idx g) j = pM g j
        /\ pE (recalc idx g) j = pE g j)
  /\ counter (recalc idx g) = counter g
  /\ marginalResults (recalc idx g) = marginalResults g.
Proof.
  intros HL HM HE. split; [|split; [|split]].
  - intros j Hj. apply recalc_cells; assumption.
  - intros j Hj. apply recalc_above, Hj.
  - apply counter_recalc.
  - apply (frame_recalc idx g).
Qed.

Lemma recalc_recurrence_witness :
  let g := IsoThresholdGenerator_ctor log6 iso_C2H (1 # 1000000000) true in
  let g1 := set_cnt 0 2 (set_cnt 1 1 g) in
  (forall j, (j <= 1)%nat -> cell_ok (recalc 1 g1) j)
  /\ (forall j, (1 < j)%nat ->
        pL (recalc 1 g1) j = pL g1 j /\ pM (recalc 1 g1) j = pM g1 j
        /\ pE (recalc 1 g1) j = pE g1 j)
  /\ counter (recalc 1 g1) = counter g1
  /\ marginalResults (recalc 1 g1) = marginalResults g1.
Proof.
  cbv zeta. apply recalc_recurrence; vm_compute; lia.
Defined.

(** A cell that already follows the recurrence is rewritten with the value
    it holds. *)
Lemma recalc_step_fixed idx g :
  (idx < length (partialLProbs g))%nat ->
  (idx < length (partialMasses g))%nat ->
  (idx < length (partialExpProbs g))%nat ->
  cell_ok g idx -> recalc_step idx g = g.
Proof.
  intros HL HM HE (H1 & H2 & H3).
  destruct g as [D k l m e c s Lc ms].
  unfold lp_cell, recalc_step, set_pE, set_pM, set_pL, pL, pM, pE, marginal, cnt in *.
  cbn [dimNumber isotopeNumbers partialLProbs partialMasses partialExpProbs
       counter maxConfsLPSum Lcutoff marginalResults] in *.
  rewrite <- H1, <- H2, <- H3. f_equal.
  - apply list_insert_id. destruct (lookup_lt_is_Some_2 l idx HL) as [x Hx].
    rewrite nth_lookup, Hx. reflexivity.
  - apply list_insert_id. destruct (lookup_lt_is_Some_2 m idx HM) as [x Hx].
    rewrite nth_lookup, Hx. reflexivity.
  - apply list_insert_id. destruct (lookup_lt_is_Some_2 e idx HE) as [x Hx].
    rewrite nth_lookup, Hx. reflexivity.
Qed.

Lemma recalc_fixed k : forall g,
  (k < length (partialLProbs g))%nat ->
  (k < length (partialMasses g))%nat ->
  (k < length (partialExpProbs g))%nat ->
  (forall j, (j <= k)%nat -> cell_ok g j) -> recalc k g = g.
Proof.
  induction k as [|k IH]; intros g HL HM HE H; cbn [recalc].
  - apply recalc_step_fixed; try assumption. apply H. lia.
  - rewrite recalc_step_fixed; try assumption; [|apply H; lia].
    apply IH; try lia. intros j Hj. apply H. lia.
Qed.

(** X2.  [recalc] changes nothing in an object whose cells [0 .. idx]
    already follow the recurrence; in particular a second [recalc(idx)]
    right after a first one changes nothing. *)
Theorem recalc_idempotent idx g :
  (idx < length (partialLProbs g))%nat ->
  (idx < length (partialMasses g))%nat ->
  (idx < length (partialExpProbs g))%nat ->
  ((forall j, (j <= idx)%nat -> cell_ok g j) -> recalc idx g = g)
  /\ recalc idx (recalc idx g) = recalc idx g.
Proof.
  intros HL HM HE. split; [apply recalc_fixed; assumption|].
  destruct (recalc_lengths idx g) as (L1 & L2 & L3).
  apply recalc_fixed; try (rewrite ?L1, ?L2, ?L3; assumption).
  intros j Hj. apply recalc_cells; assumption.
Qed.

Lemma recalc_idempotent_witness :
  let g := set_cnt 0 2 (set_cnt 1 1
             (IsoThresholdGenerator_ctor log6 iso_C2H (1 # 1000000000) true)) in
  ((forall j, (j <= 1)%nat -> cell_ok g j) -> recalc 1 g = g)
  /\ recalc 1 (recalc 1 g) = recalc 1 g.
Proof.
  cbv zeta. apply recalc_idempotent; vm_compute; lia.
Defined.

(** ** The counters of the fast walk *)

Lemma Fast_carry_counter n : forall idx g g',
  length (counter g) = dimNumber g ->
  (idx + n = dimNumber g - 1)%nat ->
  (forall j, (j < idx)%nat -> cnt g j = 0%nat) ->
  Fast.carry n idx g = (true, g') ->
  exists i, (idx < i)%nat /\ (i < length (counter g))%nat
    /\ length (counter g') = length (counter g)
    /\ cnt g' i = S (cnt g i)
    /\ (forall j, (j < i)%nat -> cnt g' j = 0%nat)
    /\ (forall j, (i < j)%nat -> cnt g' j = cnt g j).
Proof.
  induction n as [|n IH]; intros idx g g' Hlen Hn Hz Hc.
  - simpl in Hc. discriminate Hc.
  - cbn [Fast.carry] in Hc.
    replace (S idx - 1)%nat with idx in Hc by lia.
    set (g1 := set_cnt idx 0 g) in Hc.
    set (g2 := set_cnt (S idx) (S (cnt g1 (S idx))) g1) in Hc.
    set (g3 := set_pL (S idx)
                 (dadd (pL g2 (S (S idx)))
                       (get_lProb (marginal g2 (S idx)) (cnt g2 (S idx)))) g2) in Hc.
    assert (C3 : counter g3 = <[S idx := S (cnt g (S idx))]> (<[idx := 0%nat]> (counter g))).
    { unfold g3, g2, g1. change (counter (set_pL ?i ?v ?h)) with (counter h).
      unfold set_cnt at 1. cbn [counter]. unfold set_cnt at 2. cbn [counter].
      rewrite cnt_set_cnt_ne by lia. reflexivity. }
    assert (L3 : length (counter g3) = length (counter g))
      by (rewrite C3, !length_insert; reflexivity).
    assert (Z3 : forall j, (j <= idx)%nat -> cnt g3 j = 0%nat).
    { intros j Hj. unfold cnt. rewrite C3. rewrite nth_insert_ne by lia.
      destruct (Nat.eq_dec j idx) as [->|Hne].
      - apply nth_insert_eq. lia.
      - rewrite nth_insert_ne by lia. apply Hz. lia. }
    assert (S3 : cnt g3 (S idx) = S (cnt g (S idx))).
    { unfold cnt at 1. rewrite C3. apply nth_insert_eq.
      rewrite length_insert. lia. }
    assert (A3 : forall j, (S idx < j)%nat -> cnt g3 j = cnt g j).
    { intros j Hj. unfold cnt. rewrite C3, !nth_insert_ne by lia. reflexivity. }
    destruct (dge _ _).
    + injection Hc as <-. exists (S idx).
      unfold cnt in *. rewrite counter_recalc.
      change (counter (set_pE ?i ?v ?h)) with (counter h).
      change (counter (set_pM ?i ?v ?h)) with (counter h).
      repeat split; try assumption; try lia.
      intros j Hj. apply Z3. lia.
    + destruct (IH (S idx) g3 g') as (i & Hi & Hil & Hl & Hs & Hb & Ha).
      * change (dimNumber g3) with (dimNumber g). lia.
      * change (dimNumber g3) with (dimNumber g). lia.
      * intros j Hj. apply Z3. lia.
      * exact Hc.
      * exists i. rewrite Hl, Hs, L3. repeat split; try lia.
        -- rewrite A3 by lia. reflexivity.
        -- exact Hb.
        -- intros j Hj. rewrite Ha by exact Hj. apply A3. lia.
Qed.

Lemma Fast_advance_odometer_step f f' :
  length (counter (base f)) = dimNumber (base f) ->
  (0 < dimNumber (base f))%nat ->
  Fast.advanceToNextConfiguration f = (true, f') ->
  exists idx, odometer_step idx (counter (base f)) (counter (base f')).
Proof.
  intros Hlen HD H. unfold Fast.advanceToNextConfiguration in H.
  set (g1 := set_cnt 0 (S (cnt (base f) 0)) (base f)) in H.
  set (g2 := set_pL 0 (dadd (pL g1 1) (get_lProb (marginal g1 0) (lProbs_ptr f))) g1) in H.
  assert (C2 : counter g2 = <[0%nat := S (cnt (base f) 0)]> (counter (base f)))
    by reflexivity.
  destruct (dge (pL g2 0) (Lcutoff g2)).
  - injection H as <-. exists 0%nat. cbn [base].
    change (counter (set_pE ?i ?v ?h)) with (counter h).
    change (counter (set_pM ?i ?v ?h)) with (counter h).
    rewrite C2. unfold odometer_step. rewrite length_insert.
    repeat split; try lia.
    + apply nth_insert_eq. lia.
    + intros j Hj. apply nth_insert_ne. lia.
  - destruct (Fast.carry (dimNumber g2 - 1) 0 g2) as [r g'] eqn:Hc.
    injection H as -> <-. cbn [base].
    destruct (Fast_carry_counter (dimNumber g2 - 1) 0 g2 g')
      as (i & Hi & Hil & Hl & Hs & Hb & Ha).
    + rewrite C2, length_insert. exact Hlen.
    + reflexivity.
    + intros j Hj. lia.
    + exact Hc.
    + exists i. unfold odometer_step, cnt in *.
      rewrite C2, length_insert in *.
      repeat split; try assumption.
      * rewrite Hs, nth_insert_ne by lia. reflexivity.
      * intros j Hj. rewrite Ha, nth_insert_ne by lia. reflexivity.
Qed.

(** X3.  A call of the fast walk that returns true moves the counters by
    one odometer step: one slot goes up by one, the slots below it stand at
    0 and the slots above it are untouched. *)
Theorem Fast_advance_odometer f f' :
  length (counter (base f)) = dimNumber (base f) ->
  (0 < dimNumber (base f))%nat ->
  Fast.advanceToNextConfiguration f = (true, f') ->
  exists idx, odometer_step idx (counter (base f)) (counter (base f')).
Proof. exact (Fast_advance_odometer_step f f'). Qed.

Lemma Fast_advance_odometer_witness :
  let f := snd (after Fast.advanceToNextConfiguration 3
                  (IsoThresholdGeneratorFast_ctor log6 iso_C2H (1 # 1000000000) true)) in
  exists idx,
    odometer_step idx (counter (base f))
      (counter (base (snd (Fast.advanceToNextConfiguration f)))).
Proof.
  cbv zeta.
  apply (Fast_advance_odometer _
           (snd (Fast.advanceToNextConfiguration
                   (snd (after Fast.advanceToNextConfiguration 3
                           (IsoThresholdGeneratorFast_ctor log6 iso_C2H
                              (1 # 1000000000) true)))))).
  - reflexivity.
  - vm_compute. lia.
  - vm_compute. reflexivity.
Defined.

Lemma odometer_colex idx c c' : odometer_step idx c c' -> colex_lt c c'.
Proof.
  intros (Hl & Hi & Hs & _ & Ha). split; [exact Hl|].
  exists idx. split; [rewrite Hs; lia | exact Ha].
Qed.

Lemma colex_lt_trans c1 c2 c3 : colex_lt c1 c2 -> colex_lt c2 c3 -> colex_lt c1 c3.
Proof.
  intros (L1 & i & Hi & Ai) (L2 & j & Hj & Aj).
  split; [congruence|].
  destruct (lt_eq_lt_dec i j) as [[Hlt|Heq]|Hgt].
  - exists j. split.
    + rewrite <- (Ai j) by exact Hlt. exact Hj.
    + intros k Hk. rewrite Aj, Ai by lia. reflexivity.
  - subst j. exists i. split; [lia|].
    intros k Hk. rewrite Aj, Ai by lia. reflexivity.
  - exists i. split.
    + rewrite (Aj i) by exact Hgt. exact Hi.
    + intros k Hk. rewrite Aj, Ai by lia. reflexivity.
Qed.

Lemma colex_lt_irrefl c : ~ colex_lt c c.
Proof. intros (_ & i & Hi & _). lia. Qed.

Lemma Fast_run_colex f0 :
  length (counter (base f0)) = dimNumber (base f0) ->
  (0 < dimNumber (base f0))%nat ->
  forall m,
    (forall k, (k <= m)%nat -> fst (after Fast.advanceToNextConfiguration k f0) = true) ->
    (length (counter (base (snd (after Fast.advanceToNextConfiguration m f0))))
     = dimNumber (base f0)
     /\ dimNumber (base (snd (after Fast.advanceToNextConfiguration m f0)))
        = dimNumber (base f0))
    /\ forall n, (n < m)%nat ->
         colex_lt (counter (base (snd (after Fast.advanceToNextConfiguration n f0))))
                  (counter (base (snd (after Fast.advanceToNextConfiguration m f0)))).
Proof.
  intros Hlen HD. induction m as [|m IH]; intros Htrue.
  - split; [split; [exact Hlen | reflexivity]|]. intros n Hn. lia.
  - destruct IH as [[Lm Dm] IH]; [intros k Hk; apply Htrue; lia|].
    pose proof (Htrue (S m) (le_n _)) as Hr. cbn [after] in Hr |- *.
    set (fm := snd (after Fast.advanceToNextConfiguration m f0)) in *.
    destruct (Fast.advanceToNextConfiguration fm) as [r f'] eqn:E.
    cbn [fst snd] in *. subst r.
    destruct (Fast_advance_odometer_step fm f') as [idx Hstep];
      [congruence | lia | exact E |].
    pose proof (Fast_advance_frame fm) as F. rewrite E in F. cbn [snd] in F.
    destruct F as (F & _).
    split; [split|].
    + destruct Hstep as (-> & _). exact Lm.
    + congruence.
    + intros n Hn. destruct (Nat.eq_dec n m) as [->|Hne].
      * apply (odometer_colex idx), Hstep.
      * apply (colex_lt_trans _ (counter (base fm))).
        -- apply IH. lia.
        -- apply (odometer_colex idx), Hstep.
Qed.

(** X4.  As long as the calls of the fast walk return true, no counter
    vector comes back: the vectors after two different numbers of calls
    differ, the later one being the larger when compared from the last slot
    down. *)
Theorem Fast_no_repeat f0 n m :
  length (counter (base f0)) = dimNumber (base f0) ->
  (0 < dimNumber (base f0))%nat ->
  (forall k, (k <= m)%nat -> fst (after Fast.advanceToNextConfiguration k f0) = true) ->
  (n < m)%nat ->
  colex_lt (counter (base (snd (after Fast.advanceToNextConfiguration n f0))))
           (counter (base (snd (after Fast.advanceToNextConfiguration m f0))))
  /\ counter (base (snd (after Fast.advanceToNextConfiguration n f0)))
     <> counter (base (snd (after Fast.advanceToNextConfiguration m f0))).
Proof.
  intros Hlen HD Htrue Hn.
  destruct (Fast_run_colex f0 Hlen HD m Htrue) as [_ H].
  specialize (H n Hn). split; [exact H|].
  intros Heq. rewrite Heq in H. exact (colex_lt_irrefl _ H).
Qed.

Lemma Fast_no_repeat_witness :
  let f0 := IsoThresholdGeneratorFast_ctor log6 iso_C2H (1 # 1000000000) true in
  colex_lt (counter (base (snd (after Fast.advanceToNextConfiguration 2 f0))))
           (counter (base (snd (after Fast.advanceToNextConfiguration 5 f0))))
  /\ counter (base (snd (after Fast.advanceToNextConfiguration 2 f0)))
     <> counter (base (snd (after Fast.advanceToNextConfiguration 5 f0))).
Proof.
  cbv zeta.
  apply (Fast_no_repeat
           (IsoThresholdGeneratorFast_ctor log6 iso_C2H (1 # 1000000000) true)
           2 5).
  - vm_compute. reflexivity.
  - vm_compute. lia.
  - intros k Hk.
    destruct k as [|[|[|[|[|[|k]]]]]];
      [vm_compute; reflexivity .. | exfalso; clear -Hk; lia].
  - lia.
Defined.

(** ** The partial sums of the fast walk *)

Ltac cells_unfold :=
  unfold cell_ok, lp_cell, pL, pM, pE, cnt, marginal,
    set_pL, set_pM, set_pE, set_cnt in *;
  cbn [dimNumber isotopeNumbers partialLProbs partialMasses partialExpProbs
       counter maxConfsLPSum Lcutoff marginalResults] in *.

Ltac cells_rewrite :=
  repeat first
    [ rewrite nth_insert_ne by lia
    | rewrite nth_insert_eq by (rewrite ?length_insert; lia) ].

Lemma cell_ok_ext g g' j :
  marginalResults g' = marginalResults g ->
  cnt g' j = cnt g j ->
  (pL g' j = pL g j /\ pM g' j = pM g j /\ pE g' j = pE g j) ->
  (pL g' (S j) = pL g (S j) /\ pM g' (S j) = pM g (S j)
   /\ pE g' (S j) = pE g (S j)) ->
  cell_ok g j -> cell_ok g' j.
Proof.
  intros Hm Hc (A1 & A2 & A3) (B1 & B2 & B3) (H1 & H2 & H3).
  unfold cell_ok, lp_cell, marginal in *.
  rewrite A1, A2, A3, B1, B2, B3, Hm, Hc. tauto.
Qed.

Lemma sized_recalc idx g : sized g -> sized (recalc idx g).
Proof.
  intros (S1 & S2 & S3 & S4). unfold sized.
  destruct (recalc_lengths idx g) as (-> & -> & ->).
  rewrite counter_recalc. destruct (frame_recalc idx g) as (-> & _). tauto.
Qed.

(** The carry loop, entered at [idx] with the cells above [idx] following
    the recurrence, leaves every cell following it when it accepts. *)
Lemma Fast_carry_cells n : forall idx g g',
  sized g ->
  (idx + n = dimNumber g - 1)%nat ->
  (forall j, (idx < j < dimNumber g)%nat -> cell_ok g j) ->
  (forall j, (j < idx)%nat -> cnt g j = 0%nat) ->
  Fast.carry n idx g = (true, g') ->
  sized g' /\ dimNumber g' = dimNumber g
  /\ (forall j, (j < dimNumber g)%nat -> cell_ok g' j)
  /\ cnt g' 0 = 0%nat.
Proof.
  induction n as [|n IH]; intros idx g g' Hs Hn Hup Hz Hc.
  - simpl in Hc. discriminate Hc.
  - cbn [Fast.carry] in Hc.
    replace (S idx - 1)%nat with idx in Hc by lia.
    set (g1 := set_cnt idx 0 g) in Hc.
    set (g2 := set_cnt (S idx) (S (cnt g1 (S idx))) g1) in Hc.
    set (g3 := set_pL (S idx)
                 (dadd (pL g2 (S (S idx)))
                       (get_lProb (marginal g2 (S idx)) (cnt g2 (S idx)))) g2) in Hc.
    pose proof Hs as (S1 & S2 & S3 & S4).
    assert (Hs3 : sized g3).
    { unfold sized, g3, g2, g1, set_pL, set_cnt.
      cbn [dimNumber partialLProbs partialMasses partialExpProbs counter].
      rewrite !length_insert. tauto. }
    destruct (dge _ _).
    + injection Hc as <-.
      set (g4 := set_pM (S idx)
                   (pM g3 (S (S idx))
                    + get_mass (marginal g3 (S idx)) (cnt g3 (S idx))) g3).
      set (g5 := set_pE (S idx)
                   (pE g4 (S (S idx))
                    * get_eProb (marginal g4 (S idx)) (cnt g4 (S idx))) g4).
      assert (Hs5 : sized g5).
      { destruct Hs3 as (T1 & T2 & T3 & T4).
        unfold sized, g5, g4, set_pE, set_pM.
        cbn [dimNumber partialLProbs partialMasses partialExpProbs counter].
        rewrite !length_insert. tauto. }
      pose proof Hs5 as (U1 & U2 & U3 & U4).
      change (dimNumber g5) with (dimNumber g) in *.
      split; [apply sized_recalc, Hs5|].
      split; [apply (frame_recalc idx g5)|].
      split.
      * intros j Hj.
        destruct (le_lt_dec j idx) as [Hle|Hgt].
        { apply recalc_cells; lia. }
        apply (cell_ok_ext g5).
        -- apply (frame_recalc idx g5).
        -- unfold cnt. rewrite counter_recalc. reflexivity.
        -- apply recalc_above. lia.
        -- apply recalc_above. lia.
        -- destruct (Nat.eq_dec j (S idx)) as [->|Hne].
           ++ unfold g5, g4, g3, g2, g1. clear Hup IH.
              cells_unfold. cells_rewrite. tauto.
           ++ specialize (Hup j ltac:(lia)).
              unfold g5, g4, g3, g2, g1. clear IH.
              cells_unfold. cells_rewrite. exact Hup.
      * unfold cnt. rewrite counter_recalc.
        unfold g5, g4, g3, g2, g1. clear IH Hup.
        destruct idx as [|idx].
        -- cells_unfold. cells_rewrite. reflexivity.
        -- specialize (Hz 0%nat ltac:(lia)).
           cells_unfold. cells_rewrite. exact Hz.
    + destruct (IH (S idx) g3 g' Hs3) as (R1 & R2 & R3 & R4).
      * change (dimNumber g3) with (dimNumber g). lia.
      * change (dimNumber g3) with (dimNumber g).
        intros j Hj. specialize (Hup j ltac:(lia)).
        unfold g3, g2, g1. clear IH Hc.
        cells_unfold. cells_rewrite. exact Hup.
      * intros j Hj. unfold g3, g2, g1. clear IH Hc Hup.
        destruct (Nat.eq_dec j idx) as [->|Hne].
        -- cells_unfold. cells_rewrite. reflexivity.
        -- specialize (Hz j ltac:(lia)).
           cells_unfold. cells_rewrite. exact Hz.
      * exact Hc.
      * change (dimNumber g3) with (dimNumber g) in *. tauto.
Qed.

Lemma Fast_advance_cells_step f f' :
  sized (base f) ->
  (forall j, (1 <= j < dimNumber (base f))%nat -> cell_ok (base f) j) ->
  Fast.advanceToNextConfiguration f = (true, f') ->
  sized (base f')
  /\ dimNumber (base f') = dimNumber (base f)
  /\ (forall j, (1 <= j < dimNumber (base f))%nat -> cell_ok (base f') j)
  /\ (dge (dadd (pL (base f) 1)
                (get_lProb (marginal (base f) 0) (lProbs_ptr f)))
          (Lcutoff (base f)) = false ->
      cell_ok (base f') 0 /\ aligned f').
Proof.
  intros Hs Hup H. unfold Fast.advanceToNextConfiguration in H.
  set (g1 := set_cnt 0 (S (cnt (base f) 0)) (base f)) in H.
  set (v := dadd (pL g1 1) (get_lProb (marginal g1 0) (lProbs_ptr f))) in H.
  set (g2 := set_pL 0 v g1) in H.
  pose proof Hs as (S1 & S2 & S3 & S4).
  assert (Hs2 : sized g2).
  { unfold sized, g2, g1, set_pL, set_cnt.
    cbn [dimNumber partialLProbs partialMasses partialExpProbs counter].
    rewrite !length_insert. tauto. }
  assert (Hup2 : forall j, (0 < j < dimNumber g2)%nat -> cell_ok g2 j).
  { intros j Hj. change (dimNumber g2) with (dimNumber (base f)) in Hj.
    specialize (Hup j ltac:(lia)). unfold g2, g1.
    cells_unfold. cells_rewrite. exact Hup. }
  assert (Ev : pL g2 0 = v) by (apply pL_set_pL_eq; unfold g1; cells_unfold;
                                rewrite S1; lia).
  change (dadd (pL (base f) 1) (get_lProb (marginal (base f) 0) (lProbs_ptr f)))
    with v.
  change (Lcutoff (base f)) with (Lcutoff g2).
  rewrite Ev in H.
  destruct (dge v (Lcutoff g2)) eqn:E.
  - injection H as <-. cbn [base].
    split; [|split; [reflexivity|split; [|discriminate]]].
    + destruct Hs2 as (T1 & T2 & T3 & T4).
      unfold sized, set_pE, set_pM.
      cbn [dimNumber partialLProbs partialMasses partialExpProbs counter].
      rewrite !length_insert. tauto.
    + intros j Hj. specialize (Hup j Hj).
      unfold g2, g1 in *. clear Ev E Hs2 Hup2.
      cells_unfold. cells_rewrite. exact Hup.
  - destruct (Fast.carry (dimNumber g2 - 1) 0 g2) as [r g'] eqn:Hc.
    injection H as Hr <-. subst r. cbn [base].
    destruct (Fast_carry_cells (dimNumber g2 - 1) 0 g2 g' Hs2 eq_refl Hup2)
      as (R1 & R2 & R3 & R4); [intros j Hj; lia | exact Hc |].
    change (dimNumber g2) with (dimNumber (base f)) in *.
    split; [exact R1|]. split; [exact R2|]. split.
    + intros j Hj. apply R3. lia.
    + intros _. split.
      * apply R3. destruct (dimNumber (base f)) as [|d]; [|lia].
        simpl in Hc. discriminate Hc.
      * unfold aligned. cbn [lProbs_ptr base]. rewrite R4. reflexivity.
Qed.

(** X5.  In an object of the allocated sizes whose cells [1 .. dimNumber-1]
    follow the recurrence, a call of the fast walk that returns true leaves
    these cells following it; when the call went through the carry loop,
    cell 0 follows it as well, so that [lprob()], [mass()] and [eprob()] are
    those of the configuration the counters name, and the cursor into
    marginal 0 stands one entry after [counter[0]]. *)
Theorem Fast_advance_cells f f' :
  sized (base f) ->
  (forall j, (1 <= j < dimNumber (base f))%nat -> cell_ok (base f) j) ->
  Fast.advanceToNextConfiguration f = (true, f') ->
  sized (base f')
  /\ dimNumber (base f') = dimNumber (base f)
  /\ (forall j, (1 <= j < dimNumber (base f))%nat -> cell_ok (base f') j)
  /\ (dge (dadd (pL (base f) 1)
                (get_lProb (marginal (base f) 0) (lProbs_ptr f)))
          (Lcutoff (base f)) = false ->
      cell_ok (base f') 0 /\ aligned f').
Proof. exact (Fast_advance_cells_step f f'). Qed.

Lemma Fast_advance_cells_witness :
  let f := snd (after Fast.advanceToNextConfiguration 3
                  (IsoThresholdGeneratorFast_ctor log6 iso_C2H (1 # 1000000000) true)) in
  let f' := snd (Fast.advanceToNextConfiguration f) in
  sized (base f')
  /\ dimNumber (base f') = dimNumber (base f)
  /\ (forall j, (1 <= j < dimNumber (base f))%nat -> cell_ok (base f') j)
  /\ (dge (dadd (pL (base f) 1)
                (get_lProb (marginal (base f) 0) (lProbs_ptr f)))
          (Lcutoff (base f)) = false ->
      cell_ok (base f') 0 /\ aligned f').
Proof.
  cbv zeta.
  apply (Fast_advance_cells
           (snd (after Fast.advanceToNextConfiguration 3
                   (IsoThresholdGeneratorFast_ctor log6 iso_C2H
                      (1 # 1000000000) true)))).
  - vm_compute. repeat split; reflexivity.
  - intros j Hj.
    destruct j as [|[|j]];
      [exfalso; lia | vm_compute; repeat split; reflexivity
      | exfalso; vm_compute in Hj; lia].
  - vm_compute. reflexivity.
Defined.

Lemma Fast_advance_lprob_step f f' :
  sized (base f) ->
  (0 < dimNumber (base f))%nat ->
  (forall j, (1 <= j < dimNumber (base f))%nat -> cell_ok (base f) j) ->
  aligned f ->
  Fast.advanceToNextConfiguration f = (true, f') ->
  (forall j, (j < dimNumber (base f))%nat -> lp_cell (base f') j)
  /\ aligned f'.
Proof.
  intros Hs HD Hup Ha H.
  destruct (Fast_advance_cells_step f f' Hs Hup H) as (R1 & R2 & R3 & R4).
  destruct (dge (dadd (pL (base f) 1)
                      (get_lProb (marginal (base f) 0) (lProbs_ptr f)))
                (Lcutoff (base f))) eqn:E.
  - unfold Fast.advanceToNextConfiguration in H.
    set (g1 := set_cnt 0 (S (cnt (base f) 0)) (base f)) in H.
    set (v := dadd (pL g1 1) (get_lProb (marginal g1 0) (lProbs_ptr f))) in H.
    pose proof Hs as (S1 & S2 & S3 & S4).
    assert (Ev : pL (set_pL 0 v g1) 0 = v)
      by (apply pL_set_pL_eq; unfold g1; cells_unfold; rewrite S1; lia).
    rewrite Ev in H.
    change (dge v (Lcutoff (set_pL 0 v g1)))
      with (dge (dadd (pL (base f) 1)
                      (get_lProb (marginal (base f) 0) (lProbs_ptr f)))
                (Lcutoff (base f))) in H.
    rewrite E in H. injection H as <-.
    unfold aligned in *. cbn [base lProbs_ptr] in *.
    split.
    + intros j Hj. destruct j as [|j]; [|apply R3; lia].
      unfold v, g1. clear R1 R3 R4 Ev Hup. rewrite Ha.
      cells_unfold. cells_rewrite. reflexivity.
    + rewrite Ha. unfold g1. clear R1 R3 R4 Ev Hup.
      cells_unfold. cells_rewrite. reflexivity.
  - destruct (R4 eq_refl) as [C0 A']. split; [|exact A'].
    intros j Hj. destruct j as [|j]; [apply C0 | apply R3; lia].
Qed.

(** X6.  Once the cursor into marginal 0 stands one entry after
    [counter[0]], as every accepted carry leaves it, it stays there, and
    after every call of the fast walk that returns true every cell of
    [partialLProbs] follows the recurrence: [lprob()] is built from the
    entries of the marginals under the counters. *)
Theorem Fast_advance_lprob f f' :
  sized (base f) ->
  (0 < dimNumber (base f))%nat ->
  (forall j, (1 <= j < dimNumber (base f))%nat -> cell_ok (base f) j) ->
  aligned f ->
  Fast.advanceToNextConfiguration f = (true, f') ->
  (forall j, (j < dimNumber (base f))%nat -> lp_cell (base f') j)
  /\ aligned f'.
Proof. exact (Fast_advance_lprob_step f f'). Qed.

Lemma Fast_advance_lprob_witness :
  let f := snd (after Fast.advanceToNextConfiguration 4
                  (IsoThresholdGeneratorFast_ctor log6 iso_C2H (1 # 1000000000) true)) in
  let f' := snd (Fast.advanceToNextConfiguration f) in
  (forall j, (j < dimNumber (base f))%nat -> lp_cell (base f') j)
  /\ aligned f'.
Proof.
  cbv zeta.
  apply (Fast_advance_lprob
           (snd (after Fast.advanceToNextConfiguration 4
                   (IsoThresholdGeneratorFast_ctor log6 iso_C2H
                      (1 # 1000000000) true)))).
  - vm_compute. repeat split; reflexivity.
  - vm_compute. lia.
  - intros j Hj.
    destruct j as [|[|j]];
      [exfalso; lia | vm_compute; repeat split; reflexivity
      | exfalso; vm_compute in Hj; lia].
  - vm_compute. reflexivity.
  - vm_compute. reflexivity.
Defined.

(** ** The count-only walk *)

Lemma Cntr_recalc_masses idx : forall g,
  partialMasses (Cntr.recalc idx g) = partialMasses g
  /\ partialExpProbs (Cntr.recalc idx g) = partialExpProbs g.
Proof.
  induction idx as [|idx IH]; intros g; cbn [Cntr.recalc].
  - split; reflexivity.
  - destruct (IH (Cntr.recalc_step (S idx) g)) as [-> ->]. split; reflexivity.
Qed.

Lemma Cntr_carry_masses n : forall idx g,
  partialMasses (snd (Cntr.carry n idx g)) = partialMasses g
  /\ partialExpProbs (snd (Cntr.carry n idx g)) = partialExpProbs g.
Proof.
  induction n as [|n IH]; intros idx g; cbn [Cntr.carry].
  - split; reflexivity.
  - destruct (dge _ _).
    + cbn [snd].
      match goal with
      | |- context [Cntr.recalc ?k ?h] =>
          destruct (Cntr_recalc_masses k h) as [-> ->]
      end.
      split; reflexivity.
    + match goal with
      | |- context [Cntr.carry n (S idx) ?h] => destruct (IH (S idx) h) as [-> ->]
      end.
      split; reflexivity.
Qed.

Lemma Cntr_advance_masses f :
  partialMasses (base (snd (Cntr.advanceToNextConfiguration f)))
  = partialMasses (base f)
  /\ partialExpProbs (base (snd (Cntr.advanceToNextConfiguration f)))
     = partialExpProbs (base f)
  /\ mass_ptr (snd (Cntr.advanceToNextConfiguration f)) = mass_ptr f
  /\ exp_ptr (snd (Cntr.advanceToNextConfiguration f)) = exp_ptr f.
Proof.
  unfold Cntr.advanceToNextConfiguration.
  destruct (dge _ _).
  - cbn [snd base mass_ptr exp_ptr]. repeat split; reflexivity.
  - match goal with
    | |- context [Cntr.carry ?n 0 ?h] =>
        pose proof (Cntr_carry_masses n 0 h) as [H1 H2];
        destruct (Cntr.carry n 0 h) as [r g']
    end.
    cbn [snd base mass_ptr exp_ptr] in *. rewrite H1, H2.
    repeat split; reflexivity.
Qed.

(** X7.  The count-only walk never writes [partialMasses] or
    [partialExpProbs] and never moves the cursors into the masses and
    probabilities of marginal 0: after any number of calls, whatever they
    returned, the two arrays, and with them [mass()] and [eprob()], are what
    they were before the first call. *)
Theorem Cntr_never_writes_masses f n :
  let f' := snd (after Cntr.advanceToNextConfiguration n f) in
  partialMasses (base f') = partialMasses (base f)
  /\ partialExpProbs (base f') = partialExpProbs (base f)
  /\ mass (base f') = mass (base f)
  /\ eprob (base f') = eprob (base f)
  /\ mass_ptr f' = mass_ptr f
  /\ exp_ptr f' = exp_ptr f.
Proof.
  cbv zeta.
  assert (H : partialMasses (base (snd (after Cntr.advanceToNextConfiguration n f)))
              = partialMasses (base f)
              /\ partialExpProbs (base (snd (after Cntr.advanceToNextConfiguration n f)))
                 = partialExpProbs (base f)
              /\ mass_ptr (snd (after Cntr.advanceToNextConfiguration n f)) = mass_ptr f
              /\ exp_ptr (snd (after Cntr.advanceToNextConfiguration n f)) = exp_ptr f).
  { induction n as [|n IH]; [cbn; tauto|].
    cbn [after].
    destruct (Cntr_advance_masses (snd (after Cntr.advanceToNextConfiguration n f)))
      as (-> & -> & -> & ->).
    exact IH. }
  destruct H as (H1 & H2 & H3 & H4).
  unfold mass, eprob, pM, pE. rewrite H1, H2. tauto.
Qed.

(** X8.  Started from the same object, the count-only walk and the fast
    walk return the same answer at every call and stand, after every call,
    at the same counters with the same [partialLProbs], hence the same
    [lprob()], and with the same cursor into the log-probabilities. *)
Theorem Cntr_follows_Fast f n :
  let ff := after Fast.advanceToNextConfiguration n f in
  let cc := after Cntr.advanceToNextConfiguration n f in
  fst ff = fst cc
  /\ counter (base (snd ff)) = counter (base (snd cc))
  /\ partialLProbs (base (snd ff)) = partialLProbs (base (snd cc))
  /\ lprob (base (snd ff)) = lprob (base (snd cc))
  /\ lProbs_ptr (snd ff) = lProbs_ptr (snd cc).
Proof.
  cbv zeta.
  destruct (fsim_after n f f) as [R [S P]]; [split; [apply lsim_refl | reflexivity]|].
  split; [exact R|].
  pose proof (lsim_pL _ _ 0%nat S) as L0.
  destruct S as (_ & _ & _ & _ & Hc & Hp).
  repeat split; assumption.
Qed.

(** ** misc.h: [mass], [combinedSum], [tupleCmp] *)

Lemma nth_bump j d conf i :
  (j < length conf)%nat ->
  nth i (Ordered.bump j d conf) 0%Z
  = if Nat.eqb i j then (nth j conf 0 + d)%Z else nth i conf 0%Z.
Proof.
  intros Hj. unfold Ordered.bump.
  destruct (Nat.eqb_spec i j) as [->|Hne].
  - apply nth_insert_eq, Hj.
  - apply nth_insert_ne. congruence.
Qed.

(** Rounding to the nearest point of the grid is monotone. *)
Lemma grid_rnd_nearest_monotone a b :
  a <= b -> grid_rnd FE_TONEAREST a <= grid_rnd FE_TONEAREST b.
Proof.
  intros H. unfold grid_rnd.
  assert (Hx : a * inject_Z grid + (1 # 2) <= b * inject_Z grid + (1 # 2))
    by (unfold grid, inject_Z; lra).
  apply Qfloor_resp_le in Hx.
  revert Hx.
  generalize (Qfloor (a * inject_Z grid + (1 # 2)))
             (Qfloor (b * inject_Z grid + (1 # 2))).
  intros z1 z2 Hz. unfold Qle. cbn [Qnum Qden]. lia.
Qed.

Lemma mass_loop_monotone (fl : Q -> Q) conf m1 m2 n :
  (forall a b, a <= b -> fl a <= fl b) ->
  forall i r1 r2,
    r1 <= r2 ->
    (forall k, (i <= k < i + n)%nat -> (0 <= nth k conf 0)%Z) ->
    (forall k, (i <= k < i + n)%nat -> nth k m1 0 <= nth k m2 0) ->
    MiscConf.mass_loop fl conf m1 i n r1 <= MiscConf.mass_loop fl conf m2 i n r2.
Proof.
  intros Hfl. induction n as [|n IH]; intros i r1 r2 Hr Hc Hm.
  - exact Hr.
  - cbn [MiscConf.mass_loop]. apply IH.
    + apply Hfl.
      assert (Hp : fl (inject_Z (nth i conf 0%Z) * nth i m1 0)
                   <= fl (inject_Z (nth i conf 0%Z) * nth i m2 0)).
      { apply Hfl.
        assert (Hz : 0 <= inject_Z (nth i conf 0%Z))
          by (change 0 with (inject_Z 0); rewrite <- Zle_Qle; apply Hc; lia).
        specialize (Hm i ltac:(lia)). nra. }
      lra.
    + intros k Hk. apply Hc. lia.
    + intros k Hk. apply Hm. lia.
Qed.

(** X9.  [mass] is monotone in the isotope masses: for a configuration
    with non-negative counts, and a rounding that is monotone (as every
    rounding direction of IEEE 754 is), making no isotope lighter makes the
    computed mass no smaller.  So the computed mass of a configuration lies
    between the computed masses it would have with every isotope at the
    lightest and at the heaviest mass. *)
Theorem mass_monotone (fl : Q -> Q) conf m1 m2 dim :
  (forall a b, a <= b -> fl a <= fl b) ->
  (forall i, (i < dim)%nat -> (0 <= nth i conf 0)%Z) ->
  (forall i, (i < dim)%nat -> nth i m1 0 <= nth i m2 0) ->
  MiscConf.mass fl conf m1 dim <= MiscConf.mass fl conf m2 dim.
Proof.
  intros Hfl Hc Hm. unfold MiscConf.mass.
  apply mass_loop_monotone;
    [exact Hfl | apply Qle_refl | intros k Hk; apply Hc; lia
    | intros k Hk; apply Hm; lia].
Qed.

Lemma mass_monotone_witness :
  MiscConf.mass (grid_rnd FE_TONEAREST) [98; 2]%Z [12; 12] 2
  <= MiscConf.mass (grid_rnd FE_TONEAREST) [98; 2]%Z [12; 13003355 # 1000000] 2.
Proof.
  apply mass_monotone.
  - apply grid_rnd_nearest_monotone.
  - intros i Hi. destruct i as [|[|i]]; [simpl; lia | simpl; lia | exfalso; lia].
  - intros i Hi.
    destruct i as [|[|i]];
      [vm_compute; discriminate | vm_compute; discriminate | exfalso; lia].
Defined.

Lemma combinedSum_loop_monotone (fl : Q -> Q) conf conf' valuesContainer n :
  (forall a b, a <= b -> fl a <= fl b) ->
  forall i r r',
    r' <= r ->
    (forall k, (i <= k < i + n)%nat ->
       MiscConf.value_at valuesContainer k (nth k conf' 0%Z)
       <= MiscConf.value_at valuesContainer k (nth k conf 0%Z)) ->
    MiscConf.combinedSum_loop fl conf' valuesContainer i n r'
    <= MiscConf.combinedSum_loop fl conf valuesContainer i n r.
Proof.
  intros Hfl. induction n as [|n IH]; intros i r r' Hr Hv.
  - exact Hr.
  - cbn [MiscConf.combinedSum_loop]. apply IH.
    + apply Hfl. specialize (Hv i ltac:(lia)). lra.
    + intros k Hk. apply Hv. lia.
Qed.

(** X10.  Raising the index of one slot [j] by one, in a table that does
    not increase from the old entry to the new one (as in a table sorted by
    decreasing log-probability), does not increase [combinedSum], for any
    monotone rounding of the additions. *)
Theorem combinedSum_forward (fl : Q -> Q) conf valuesContainer dimNumber j :
  (forall a b, a <= b -> fl a <= fl b) ->
  (j < length conf)%nat ->
  MiscConf.value_at valuesContainer j (nth j conf 0 + 1)%Z
  <= MiscConf.value_at valuesContainer j (nth j conf 0%Z) ->
  MiscConf.combinedSum fl (Ordered.bump j 1 conf) valuesContainer dimNumber
  <= MiscConf.combinedSum fl conf valuesContainer dimNumber.
Proof.
  intros Hfl Hj Hle. unfold MiscConf.combinedSum.
  apply combinedSum_loop_monotone; [exact Hfl | apply Qle_refl|].
  intros k _. rewrite nth_bump by exact Hj.
  destruct (Nat.eqb_spec k j) as [->|_]; [exact Hle | apply Qle_refl].
Qed.

Lemma combinedSum_forward_witness :
  let vc := [[- (21693 # 1000000); - (3847020 # 1000000); - (9058640 # 1000000)];
             [- (115 # 1000000); - (9070503 # 1000000)]] in
  MiscConf.combinedSum (grid_rnd FE_TONEAREST) (Ordered.bump 0 1 [1; 0]%Z) vc 2
  <= MiscConf.combinedSum (grid_rnd FE_TONEAREST) [1; 0]%Z vc 2.
Proof.
  cbv zeta. apply combinedSum_forward.
  - apply grid_rnd_nearest_monotone.
  - simpl. lia.
  - vm_compute. discriminate.
Defined.

(** X11.  [tupleCmp] orders tuples by decreasing second component and is a
    strict weak ordering: no tuple comes before itself, two tuples never
    come before each other, the ordering is transitive, and so is being
    ordered neither way. *)
Theorem tupleCmp_strict_weak_order :
  (forall t1 t2, MiscConf.tupleCmp t1 t2 = true
                 <-> MiscConf.get1 t2 < MiscConf.get1 t1)
  /\ (forall t, MiscConf.tupleCmp t t = false)
  /\ (forall t1 t2, MiscConf.tupleCmp t1 t2 = true -> MiscConf.tupleCmp t2 t1 = false)
  /\ (forall t1 t2 t3, MiscConf.tupleCmp t1 t2 = true ->
        MiscConf.tupleCmp t2 t3 = true -> MiscConf.tupleCmp t1 t3 = true)
  /\ (forall t1 t2 t3,
        MiscConf.tupleCmp t1 t2 = false -> MiscConf.tupleCmp t2 t1 = false ->
        MiscConf.tupleCmp t2 t3 = false -> MiscConf.tupleCmp t3 t2 = false ->
        MiscConf.tupleCmp t1 t3 = false /\ MiscConf.tupleCmp t3 t1 = false).
Proof.
  assert (T : forall t1 t2, MiscConf.tupleCmp t1 t2 = true
                            <-> MiscConf.get1 t2 < MiscConf.get1 t1).
  { intros t1 t2. unfold MiscConf.tupleCmp.
    rewrite negb_true_iff, <- not_true_iff_false, Qle_bool_iff.
    split; [apply Qnot_le_lt | apply Qlt_not_le]. }
  assert (F : forall t1 t2, MiscConf.tupleCmp t1 t2 = false
                            <-> MiscConf.get1 t1 <= MiscConf.get1 t2).
  { intros t1 t2. unfold MiscConf.tupleCmp.
    rewrite negb_false_iff. apply Qle_bool_iff. }
  split; [exact T|]. split; [|split; [|split]].
  - intros t. apply F. apply Qle_refl.
  - intros t1 t2 H. apply T in H. apply F. lra.
  - intros t1 t2 t3 H1 H2. apply T in H1, H2. apply T. lra.
  - intros t1 t2 t3 H1 H2 H3 H4. apply F in H1, H2, H3, H4.
    split; apply F; lra.
Qed.

(** ** Closed forms of the partial sums *)

Lemma lp_cells_down g k :
  (forall j, (j < k)%nat -> lp_cell g j) ->
  pL g 0 = lprob_down g k (pL g k).
Proof.
  induction k as [|k IH]; intros H; [reflexivity|].
  cbn [lprob_down]. rewrite <- (H k) by lia. apply IH.
  intros j Hj. apply H. lia.
Qed.

Lemma cells_down g k :
  (forall j, (j < k)%nat -> cell_ok g j) ->
  pM g 0 = mass_down g k (pM g k) /\ pE g 0 = eprob_down g k (pE g k).
Proof.
  induction k as [|k IH]; intros H; [split; reflexivity|].
  destruct (H k ltac:(lia)) as (_ & H2 & H3).
  cbn [mass_down eprob_down]. rewrite <- H2, <- H3. apply IH.
  intros j Hj. apply H. lia.
Qed.

Lemma down_ext g g' k :
  marginalResults g' = marginalResults g -> counter g' = counter g ->
  forall tl tm te,
    lprob_down g' k tl = lprob_down g k tl
    /\ mass_down g' k tm = mass_down g k tm
    /\ eprob_down g' k te = eprob_down g k te.
Proof.
  intros Hm Hc. induction k as [|k IH]; intros tl tm te; [repeat split|].
  cbn [lprob_down mass_down eprob_down]. unfold marginal, cnt.
  rewrite Hm, Hc. apply IH.
Qed.

(** X12.  After [recalc(dimNumber - 1)], [lprob()] is what comes of cell
    [dimNumber] of [partialLProbs] when the log-probabilities of the
    configurations the counters name are added to it one after the other,
    from slot [dimNumber - 1] down to slot 0; [mass()] and [eprob()]
    likewise, with the masses added and the probabilities multiplied in
    that order.  The equalities are between the stored values. *)
Theorem recalc_closed_form g :
  sized g ->
  (0 < dimNumber g)%nat ->
  let g' := recalc (dimNumber g - 1) g in
  lprob g' = lprob_down g (dimNumber g) (pL g (dimNumber g))
  /\ mass g' = mass_down g (dimNumber g) (pM g (dimNumber g))
  /\ eprob g' = eprob_down g (dimNumber g) (pE g (dimNumber g)).
Proof.
  intros (S1 & S2 & S3 & S4) HD. cbv zeta.
  set (D := dimNumber g) in *. set (g' := recalc (D - 1) g).
  assert (Hc : forall j, (j < D)%nat -> cell_ok g' j)
    by (intros j Hj; apply recalc_cells; lia).
  destruct (recalc_above (D - 1) g D ltac:(lia)) as (T1 & T2 & T3).
  fold g' in T1, T2, T3.
  destruct (down_ext g g' D (proj1 (proj2 (frame_recalc (D - 1) g)))
              (counter_recalc (D - 1) g) (pL g D) (pM g D) (pE g D))
    as (J1 & J2 & J3).
  fold g' in J1, J2, J3.
  rewrite <- J1, <- J2, <- J3, <- T1, <- T2, <- T3.
  split.
  - apply lp_cells_down. intros j Hj. apply (Hc j Hj).
  - apply cells_down, Hc.
Qed.

Lemma recalc_closed_form_witness :
  let g := set_cnt 0 2 (set_cnt 1 1
             (IsoThresholdGenerator_ctor log6 iso_C2H (1 # 1000000000) true)) in
  let g' := recalc (dimNumber g - 1) g in
  lprob g' = lprob_down g (dimNumber g) (pL g (dimNumber g))
  /\ mass g' = mass_down g (dimNumber g) (pM g (dimNumber g))
  /\ eprob g' = eprob_down g (dimNumber g) (pE g (dimNumber g)).
Proof.
  cbv zeta. apply recalc_closed_form.
  - vm_compute. repeat split; reflexivity.
  - vm_compute. lia.
Defined.

Lemma Fast_carry_top n : forall idx g,
  (idx + n = dimNumber g - 1)%nat ->
  pL (snd (Fast.carry n idx g)) (dimNumber g) = pL g (dimNumber g).
Proof.
  induction n as [|n IH]; intros idx g Hn; cbn [Fast.carry].
  - reflexivity.
  - replace (S idx - 1)%nat with idx by lia.
    set (g3 := set_pL (S idx) _ (set_cnt (S idx) _ (set_cnt idx 0 g))).
    assert (T3 : pL g3 (dimNumber g) = pL g (dimNumber g)).
    { unfold g3. rewrite pL_set_pL_ne by lia. reflexivity. }
    destruct (dge _ _).
    + cbn [snd].
      destruct (recalc_above idx
                  (set_pE (S idx)
                     (pE (set_pM (S idx)
                            (pM g3 (S (S idx))
                             + get_mass (marginal g3 (S idx)) (cnt g3 (S idx))) g3)
                         (S (S idx))
                      * get_eProb
                          (marginal (set_pM (S idx)
                             (pM g3 (S (S idx))
                              + get_mass (marginal g3 (S idx)) (cnt g3 (S idx))) g3)
                             (S idx))
                          (cnt (set_pM (S idx)
                             (pM g3 (S (S idx))
                              + get_mass (marginal g3 (S idx)) (cnt g3 (S idx))) g3)
                             (S idx)))
                     (set_pM (S idx)
                        (pM g3 (S (S idx))
                         + get_mass (marginal g3 (S idx)) (cnt g3 (S idx))) g3))
                  (dimNumber g)) as (-> & _); [lia|].
      exact T3.
    + change (dimNumber g) with (dimNumber g3). rewrite IH.
      * exact T3.
      * change (dimNumber g3) with (dimNumber g). lia.
Qed.

Lemma Fast_advance_top f :
  (0 < dimNumber (base f))%nat ->
  pL (base (snd (Fast.advanceToNextConfiguration f))) (dimNumber (base f))
  = pL (base f) (dimNumber (base f)).
Proof.
  intros HD. unfold Fast.advanceToNextConfiguration.
  set (g1 := set_cnt 0 (S (cnt (base f) 0)) (base f)).
  set (g2 := set_pL 0 _ g1).
  assert (T2 : pL g2 (dimNumber (base f)) = pL (base f) (dimNumber (base f))).
  { unfold g2. rewrite pL_set_pL_ne by lia. reflexivity. }
  destruct (dge _ _).
  - cbn [snd base]. exact T2.
  - pose proof (Fast_carry_top (dimNumber g2 - 1) 0 g2 eq_refl) as Hc.
    destruct (Fast.carry _ _ _) as [r g']. cbn [snd base] in *.
    change (dimNumber g2) with (dimNumber (base f)) in Hc. rewrite Hc. exact T2.
Qed.

Lemma Fast_run_invariant f0 :
  sized (base f0) ->
  (0 < dimNumber (base f0))%nat ->
  (forall j, (1 <= j < dimNumber (base f0))%nat -> cell_ok (base f0) j) ->
  aligned f0 ->
  forall n,
    (forall k, (k <= n)%nat -> fst (after Fast.advanceToNextConfiguration k f0) = true) ->
    let f := snd (after Fast.advanceToNextConfiguration n f0) in
    sized (base f) /\ dimNumber (base f) = dimNumber (base f0)
    /\ (forall j, (1 <= j < dimNumber (base f0))%nat -> cell_ok (base f) j)
    /\ aligned f
    /\ pL (base f) (dimNumber (base f0)) = pL (base f0) (dimNumber (base f0))
    /\ ((0 < n)%nat -> forall j, (j < dimNumber (base f0))%nat -> lp_cell (base f) j).
Proof.
  intros Hs HD Hup Ha. induction n as [|n IH]; intros Htrue; cbv zeta.
  - cbn [after snd].
    split; [exact Hs|]. split; [reflexivity|]. split; [exact Hup|].
    split; [exact Ha|]. split; [reflexivity|]. intros Hn. lia.
  - destruct IH as (I1 & I2 & I3 & I4 & I5 & _); [intros k Hk; apply Htrue; lia|].
    pose proof (Htrue (S n) (le_n _)) as Hr. cbn [after] in Hr |- *.
    set (fn := snd (after Fast.advanceToNextConfiguration n f0)) in *.
    pose proof (Fast_advance_top fn ltac:(lia)) as Ht.
    destruct (Fast.advanceToNextConfiguration fn) as [r f'] eqn:E.
    cbn [fst snd] in *. subst r. rewrite I2 in Ht.
    destruct (Fast_advance_cells_step fn f' I1) as (R1 & R2 & R3 & _);
      [rewrite I2; exact I3 | exact E |].
    destruct (Fast_advance_lprob_step fn f' I1) as (L1 & L2);
      [lia | rewrite I2; exact I3 | exact I4 | exact E |].
    rewrite I2 in R3, L1.
    split; [exact R1|]. split; [congruence|]. split; [exact R3|].
    split; [exact L2|]. split; [congruence|]. intros _. exact L1.
Qed.

(** X13.  From a state of the allocated sizes whose cells
    [1 .. dimNumber-1] follow the recurrence and whose cursor stands one
    entry after [counter[0]] (every accepted carry leaves such a state), as
    long as the calls of the fast walk return true, [lprob()] after each of
    them is what comes of cell [dimNumber] of [partialLProbs], which is
    never written, when the log-probabilities of the configurations the
    counters name are added to it from slot [dimNumber - 1] down to
    slot 0. *)
Theorem Fast_run_lprob f0 n :
  sized (base f0) ->
  (0 < dimNumber (base f0))%nat ->
  (forall j, (1 <= j < dimNumber (base f0))%nat -> cell_ok (base f0) j) ->
  aligned f0 ->
  (forall k, (k <= n)%nat -> fst (after Fast.advanceToNextConfiguration k f0) = true) ->
  (0 < n)%nat ->
  let f := snd (after Fast.advanceToNextConfiguration n f0) in
  lprob (base f)
  = lprob_down (base f) (dimNumber (base f0))
               (pL (base f0) (dimNumber (base f0))).
Proof.
  intros Hs HD Hup Ha Htrue Hn. cbv zeta.
  destruct (Fast_run_invariant f0 Hs HD Hup Ha n Htrue)
    as (_ & _ & _ & _ & T & L).
  rewrite <- T. apply lp_cells_down. apply L, Hn.
Qed.

Lemma Fast_run_lprob_witness :
  let f0 := snd (after Fast.advanceToNextConfiguration 4
                   (IsoThresholdGeneratorFast_ctor log6 iso_C2H (1 # 1000000000) true)) in
  let f := snd (after Fast.advanceToNextConfiguration 2 f0) in
  lprob (base f)
  = lprob_down (base f) (dimNumber (base f0))
               (pL (base f0) (dimNumber (base f0))).
Proof.
  cbv zeta.
  apply (Fast_run_lprob
           (snd (after Fast.advanceToNextConfiguration 4
                   (IsoThresholdGeneratorFast_ctor log6 iso_C2H
                      (1 # 1000000000) true))) 2).
  - vm_compute. repeat split; reflexivity.
  - vm_compute. lia.
  - intros j Hj.
    destruct j as [|[|j]];
      [exfalso; lia | vm_compute; repeat split; reflexivity
      | exfalso; vm_compute in Hj; lia].
  - vm_compute. reflexivity.
  - intros k Hk.
    destruct k as [|[|[|k]]];
      [vm_compute; reflexivity .. | exfalso; clear -Hk; lia].
  - lia.
Defined.

(** ** What the ordered generator's signature holds *)

Module OrderedSignature.

Import Ordered OrderedWrites OrderedVocabulary.

Lemma signature_loop_spec g c n : forall ii off space,
  (forall e, (ii <= e < ii + n)%nat ->
     length (confs_at g e (nth e c 0%Z)) = nth e (isotopeNumbers g) 0%nat) ->
  (off + isotopes_from g ii n <= length space)%nat ->
  signature_loop g c ii n off space
  = take off space
    ++ concat (map (fun ii => confs_at g ii (nth ii c 0%Z)) (seq ii n))
    ++ drop (off + isotopes_from g ii n) space.
Proof.
  induction n as [|n IH]; intros ii off space Hk Hl.
  - simpl. rewrite Nat.add_0_r, take_drop. reflexivity.
  - cbn [signature_loop isotopes_from] in *.
    set (k := nth ii (isotopeNumbers g) 0%nat) in *.
    set (v := confs_at g ii (nth ii c 0%Z)).
    assert (Hv : length v = k) by (apply Hk; lia).
    rewrite IH; [|intros e He; apply Hk; lia|rewrite length_memcpy; lia].
    rewrite memcpy_spec by lia.
    replace (take k v) with v by (rewrite <- Hv, firstn_all; reflexivity).
    cbn [seq map concat]. fold v.
    set (A := take off space). set (C := drop (off + k) space).
    assert (HA : length (A ++ v) = (off + k)%nat).
    { unfold A. rewrite length_app, length_take. lia. }
    rewrite (app_assoc A v C).
    rewrite (take_app_length' (A ++ v) C) by (symmetry; exact HA).
    replace (off + k + isotopes_from g (S ii) n)%nat
      with (length (A ++ v) + isotopes_from g (S ii) n)%nat by lia.
    rewrite drop_app_add. unfold C. rewrite drop_drop.
    rewrite <- !app_assoc.
    replace (off + k + isotopes_from g (S ii) n)%nat
      with (off + (k + isotopes_from g (S ii) n))%nat by lia.
    reflexivity.
Qed.

(** X15.  [get_conf_signature] of the ordered generator writes the isotope
    counts of the configuration the generator stands at, which is [topConf]
    with the entry at [ccount] lowered by one, slot after slot into the
    first cells of the buffer, as many as the slots have isotopes together,
    and leaves the rest of the buffer alone. *)
Theorem get_conf_signature_current g space :
  (forall ii, (ii < dimNumber g)%nat ->
     length (confs_at g ii (nth ii (current_conf g) 0%Z))
     = nth ii (isotopeNumbers g) 0%nat) ->
  (isotopes_from g 0 (dimNumber g) <= length space)%nat ->
  fst (get_conf_signature g space)
  = current_signature g 0 (dimNumber g)
    ++ drop (isotopes_from g 0 (dimNumber g)) space.
Proof.
  intros Hk Hl. unfold get_conf_signature. cbn [fst].
  fold (current_conf g).
  rewrite signature_loop_spec; [reflexivity| |exact Hl].
  intros e He. apply Hk. lia.
Qed.

Lemma get_conf_signature_current_witness :
  let g := mkOrdered 2 [2; 2]%nat
             [[[2; 0]; [1; 1]; [0; 2]]; [[1; 0]; [0; 1]]]%Z [2; 1]%Z 0 in
  fst (get_conf_signature g [7; 7; 7; 7; 9]%Z)
  = current_signature g 0 (dimNumber g)
    ++ drop (isotopes_from g 0 (dimNumber g)) [7; 7; 7; 7; 9]%Z.
Proof.
  cbv zeta. apply get_conf_signature_current.
  - intros ii Hii.
    destruct ii as [|[|ii]]; [reflexivity | reflexivity | exfalso; simpl in Hii; lia].
  - simpl. lia.
Defined.

End OrderedSignature.

(** ** What the fast walk leaves alone *)

(** X16.  However many times the fast walk is called and whatever it
    returns, it never changes [dimNumber], [isotopeNumbers], the marginals,
    [Lcutoff] or [maxConfsLPSum], and [partialLProbs] keeps its length. *)
Theorem Fast_never_writes_tables f n :
  let f' := snd (after Fast.advanceToNextConfiguration n f) in
  dimNumber (base f') = dimNumber (base f)
  /\ isotopeNumbers (base f') = isotopeNumbers (base f)
  /\ marginalResults (base f') = marginalResults (base f)
  /\ Lcutoff (base f') = Lcutoff (base f)
  /\ maxConfsLPSum (base f') = maxConfsLPSum (base f)
  /\ length (partialLProbs (base f')) = length (partialLProbs (base f)).
Proof.
  cbv zeta.
  assert (F : frame (base f) (base (snd (after Fast.advanceToNextConfiguration n f)))).
  { induction n as [|n IH]; [apply frame_refl|].
    cbn [after]. eapply frame_trans; [exact IH | apply Fast_advance_frame]. }
  destruct F as (F1 & F2 & F3 & F4 & F5 & F6). tauto.
Qed.

(** ** What a true return has tested *)

Lemma Cntr_recalc_keeps k : forall g,
  Lcutoff (Cntr.recalc k g) = Lcutoff g
  /\ maxConfsLPSum (Cntr.recalc k g) = maxConfsLPSum g
  /\ dimNumber (Cntr.recalc k g) = dimNumber g
  /\ forall j, (k < j)%nat -> pL (Cntr.recalc k g) j = pL g j.
Proof.
  induction k as [|k IH]; intros g; cbn [Cntr.recalc].
  - repeat split. intros j Hj. unfold Cntr.recalc_step.
    apply pL_set_pL_ne. lia.
  - destruct (IH (Cntr.recalc_step (S k) g)) as (-> & -> & -> & H).
    repeat split. intros j Hj. rewrite H by lia.
    unfold Cntr.recalc_step. apply pL_set_pL_ne. lia.
Qed.

Lemma Cntr_carry_tested n : forall idx g g',
  (idx + n = dimNumber g - 1)%nat ->
  Cntr.carry n idx g = (true, g') ->
  dimNumber g' = dimNumber g
  /\ exists i, (idx < i < dimNumber g)%nat
       /\ dge (dadd (pL g' i) (maxLP g' (i - 1))) (Lcutoff g') = true.
Proof.
  induction n as [|n IH]; intros idx g g' Hn; cbn [Cntr.carry]; [discriminate|].
  set (g3 := set_pL (S idx) _ (set_cnt (S idx) _ (set_cnt idx 0 g))).
  destruct (dge _ _) eqn:E.
  - intros [= <-].
    match goal with
    | |- context [Cntr.recalc ?k ?x] =>
        destruct (Cntr_recalc_keeps k x) as (K1 & K2 & K3 & K4)
    end.
    split; [rewrite K3; reflexivity|].
    exists (S idx). split; [lia|].
    unfold maxLP. rewrite K1, K2, K4 by lia. exact E.
  - intros Hc.
    destruct (IH (S idx) g3 g') as (D & i & Hi & T);
      [change (dimNumber g3) with (dimNumber g); lia | exact Hc |].
    change (dimNumber g3) with (dimNumber g) in D, Hi.
    split; [exact D|]. exists i. split; [lia | exact T].
Qed.

(** X14.  A call of the count-only walk that returns true has passed one
    of the two tests of the walk, on values that are still in the object:
    either [partialLProbs[0]] itself is at or above [Lcutoff] (the hot
    path), or some cell [idx >= 1] plus [maxConfsLPSum[idx-1]] is (an
    accepted carry). *)
Theorem Cntr_returns_tested c c' :
  Cntr.advanceToNextConfiguration c = (true, c') ->
  dge (lprob (base c')) (Lcutoff (base c')) = true
  \/ exists idx, (1 <= idx < dimNumber (base c'))%nat
       /\ dge (dadd (pL (base c') idx) (maxLP (base c') (idx - 1)))
              (Lcutoff (base c')) = true.
Proof.
  unfold Cntr.advanceToNextConfiguration.
  set (g2 := set_pL 0 _ (set_cnt 0 _ (base c))).
  destruct (dge (pL g2 0) (Lcutoff g2)) eqn:E.
  - intros [= <-]. left. exact E.
  - destruct (Cntr.carry (dimNumber g2 - 1) 0 g2) as [r g'] eqn:C.
    intros [= -> <-]. right. cbn [base].
    destruct (Cntr_carry_tested (dimNumber g2 - 1) 0 g2 g' eq_refl C)
      as (D & i & Hi & T).
    exists i. rewrite D. split; [lia | exact T].
Qed.

Lemma Cntr_returns_tested_witness :
  let c := snd (after Cntr.advanceToNextConfiguration 3
                  (IsoThresholdGeneratorCntr_ctor log6 iso_C2H (1 # 1000000000) true)) in
  let c' := snd (Cntr.advanceToNextConfiguration c) in
  dge (lprob (base c')) (Lcutoff (base c')) = true
  \/ exists idx, (1 <= idx < dimNumber (base c'))%nat
       /\ dge (dadd (pL (base c') idx) (maxLP (base c') (idx - 1)))
              (Lcutoff (base c')) = true.
Proof.
  cbv zeta.
  apply (Cntr_returns_tested
           (snd (after Cntr.advanceToNextConfiguration 3
                   (IsoThresholdGeneratorCntr_ctor log6 iso_C2H
                      (1 # 1000000000) true)))).
  vm_compute. reflexivity.
Defined.

Lemma Fast_carry_tested n : forall idx g g',
  (idx + n = dimNumber g - 1)%nat ->
  Fast.carry n idx g = (true, g') ->
  dimNumber g' = dimNumber g
  /\ exists i, (idx < i < dimNumber g)%nat
       /\ dge (dadd (pL g' i) (maxLP g' (i - 1))) (Lcutoff g') = true.
Proof.
  induction n as [|n IH]; intros idx g g' Hn; cbn [Fast.carry]; [discriminate|].
  set (g3 := set_pL (S idx) _ (set_cnt (S idx) _ (set_cnt idx 0 g))).
  destruct (dge _ _) eqn:E.
  - intros [= <-].
    match goal with
    | |- context [recalc ?k ?x] =>
        destruct (frame_recalc k x) as (K3 & _ & K1 & K2 & _);
        destruct (recalc_above k x (S idx) ltac:(lia)) as (K4 & _)
    end.
    split; [rewrite K3; reflexivity|].
    exists (S idx). split; [lia|].
    unfold maxLP. rewrite K1, K2, K4. exact E.
  - intros Hc.
    destruct (IH (S idx) g3 g') as (D & i & Hi & T);
      [change (dimNumber g3) with (dimNumber g); lia | exact Hc |].
    change (dimNumber g3) with (dimNumber g) in D, Hi.
    split; [exact D|]. exists i. split; [lia | exact T].
Qed.

(** X18.  The same of the fast walk: a call that returns true has passed
    the test of the hot path on [partialLProbs[0]], or the test of the
    carry on some cell [idx >= 1] plus [maxConfsLPSum[idx-1]], and the
    values tested are still in the object.  Nothing more is tested after an
    accepted carry: [recalc(idx-1)] fills the cells below [idx] and the
    call returns. *)
Theorem Fast_returns_tested f f' :
  Fast.advanceToNextConfiguration f = (true, f') ->
  dge (lprob (base f')) (Lcutoff (base f')) = true
  \/ exists idx, (1 <= idx < dimNumber (base f'))%nat
       /\ dge (dadd (pL (base f') idx) (maxLP (base f') (idx - 1)))
              (Lcutoff (base f')) = true.
Proof.
  unfold Fast.advanceToNextConfiguration.
  set (g2 := set_pL 0 _ (set_cnt 0 _ (base f))).
  destruct (dge (pL g2 0) (Lcutoff g2)) eqn:E.
  - intros [= <-]. left. exact E.
  - destruct (Fast.carry (dimNumber g2 - 1) 0 g2) as [r g'] eqn:C.
    intros [= -> <-]. right. cbn [base].
    destruct (Fast_carry_tested (dimNumber g2 - 1) 0 g2 g' eq_refl C)
      as (D & i & Hi & T).
    exists i. rewrite D. split; [lia | exact T].
Qed.

Lemma Fast_returns_tested_witness :
  let f := snd (after Fast.advanceToNextConfiguration 3
                  (IsoThresholdGeneratorFast_ctor log6 iso_C2H (1 # 1000000000) true)) in
  let f' := snd (Fast.advanceToNextConfiguration f) in
  dge (lprob (base f')) (Lcutoff (base f')) = true
  \/ exists idx, (1 <= idx < dimNumber (base f'))%nat
       /\ dge (dadd (pL (base f') idx) (maxLP (base f') (idx - 1)))
              (Lcutoff (base f')) = true.
Proof.
  cbv zeta.
  apply (Fast_returns_tested
           (snd (after Fast.advanceToNextConfiguration 3
                   (IsoThresholdGeneratorFast_ctor log6 iso_C2H
                      (1 # 1000000000) true)))).
  vm_compute. reflexivity.
Defined.
